(** * Verification of the deterministic group allocator

    Shallow embedding of [tools/assign_nouveau_groupe.py]: the class
    [GroupAllocator] (capacity table, eligibility sets, the three
    [defaultdict] counters and the methods working on them) and the
    allocation loop of [main].

    Python integers are unbounded, so group identifiers and counters are
    [Z].  The constant attributes set once in [__init__] ([capacities],
    [p1_groups], [p2_groups], [stage_forbidden]) are never assigned again
    and are top-level constants here; the three mutable [defaultdict]s form
    the record [GroupAllocator], threaded through a small state-and-error
    monad.  Reading a missing key of a [defaultdict] stores the default
    under that key, and the model does so too. *)

From stdpp Require Import gmap strings list fin_maps sorting pretty.
From Stdlib Require Import Ascii.

Local Open Scope Z_scope.

(** ** Constant attributes of [GroupAllocator.__init__] *)

(** [range(a, b)] for integers. *)
Definition range (a b : Z) : list Z := seqZ a (b - a).

(** The three assignments to [self.capacities], in source order. *)
Definition capacities : gmap Z Z :=
  let c1 := foldl (λ m g, <[g := 8]> m) ∅ (range 1 5) in
  let c2 := foldl (λ m g, <[g := 7]> m) c1 (range 5 23) in
  <[23 := 6]> c2.

Definition p1_groups : gset Z :=
  {[1; 2; 3; 4; 17; 18; 19; 20; 21; 22; 23]}.

Definition p2_groups : gset Z :=
  {[1; 2; 3; 4; 5; 6; 7; 8; 9; 10; 11; 12; 13; 14; 15; 16]}.

Definition stage_forbidden : gset Z := {[1; 2; 3; 4]}.

(** ** Allocator state *)

(** The two histograms are [defaultdict(lambda: defaultdict(int))]. *)
Record GroupAllocator := mkGroupAllocator {
  group_counts : gmap Z Z;
  group_source_groupes : gmap Z (gmap string Z);
  group_metiers : gmap Z (gmap string Z)
}.

(** The state right after [GroupAllocator()]. *)
Definition init : GroupAllocator := mkGroupAllocator ∅ ∅ ∅.

Definition with_counts (f : gmap Z Z → gmap Z Z) (st : GroupAllocator) :=
  mkGroupAllocator (f (group_counts st)) (group_source_groupes st)
                   (group_metiers st).

(** ** State and exception monad

    A computation returns a value or raises [KeyError]; the state reached
    so far is kept in both cases, as mutation is in Python. *)

Inductive result (A : Type) : Type :=
  | Ok (a : A)
  | KeyError (k : Z).
Arguments Ok {A} a.
Arguments KeyError {A} k.

Definition M (A : Type) : Type := GroupAllocator → result A * GroupAllocator.

#[global] Instance M_ret : MRet M := λ A a st, (Ok a, st).

#[global] Instance M_bind : MBind M := λ A B k m st,
  match m st with
  | (Ok a, st') => k a st'
  | (KeyError x, st') => (KeyError x, st')
  end.

(** ** [defaultdict] and [dict] accesses *)

(** [self.group_counts[g]] as an expression. *)
Definition counts_getitem (g : Z) : M Z := λ st,
  match group_counts st !! g with
  | Some c => (Ok c, st)
  | None => (Ok 0, with_counts (<[g := 0]>) st)
  end.

(** [self.group_counts[g] = v]. *)
Definition counts_setitem (g v : Z) : M unit := λ st,
  (Ok tt, with_counts (<[g := v]>) st).

(** [self.capacities[g]]: a plain [dict], a missing key raises. *)
Definition capacities_getitem (g : Z) : M Z := λ st,
  match capacities !! g with
  | Some c => (Ok c, st)
  | None => (KeyError g, st)
  end.

(** [h[g][k]] on a nested [defaultdict]: a missing [g] receives an empty
    inner dictionary, a missing [k] the value 0. *)
Definition nested_getitem (h : gmap Z (gmap string Z)) (g : Z) (k : string)
  : Z * gmap Z (gmap string Z) :=
  match h !! g with
  | Some d =>
      match d !! k with
      | Some c => (c, h)
      | None => (0, <[g := <[k := 0]> d]> h)
      end
  | None => (0, <[g := {[k := 0]}]> h)
  end.

(** [h[g][k] = v], the inner dictionary being fetched as above. *)
Definition nested_setitem (h : gmap Z (gmap string Z)) (g : Z) (k : string)
  (v : Z) : gmap Z (gmap string Z) :=
  <[g := <[k := v]> (default ∅ (h !! g))]> h.

Definition source_groupes_getitem (g : Z) (k : string) : M Z := λ st,
  let '(c, h) := nested_getitem (group_source_groupes st) g k in
  (Ok c, mkGroupAllocator (group_counts st) h (group_metiers st)).

Definition source_groupes_setitem (g : Z) (k : string) (v : Z) : M unit :=
  λ st,
  (Ok tt, mkGroupAllocator (group_counts st)
            (nested_setitem (group_source_groupes st) g k v)
            (group_metiers st)).

Definition metiers_getitem (g : Z) (k : string) : M Z := λ st,
  let '(c, h) := nested_getitem (group_metiers st) g k in
  (Ok c, mkGroupAllocator (group_counts st) (group_source_groupes st) h).

Definition metiers_setitem (g : Z) (k : string) (v : Z) : M unit := λ st,
  (Ok tt, mkGroupAllocator (group_counts st) (group_source_groupes st)
            (nested_setitem (group_metiers st) g k v)).

(** ** Tuples of four integers, compared as Python compares tuples *)

Definition score : Type := Z * Z * Z * Z.

Definition tuple_lt (a b : score) : bool :=
  let '(a1, a2, a3, a4) := a in
  let '(b1, b2, b3, b4) := b in
  if negb (a1 =? b1) then a1 <? b1
  else if negb (a2 =? b2) then a2 <? b2
  else if negb (a3 =? b3) then a3 <? b3
  else a4 <? b4.

(** ** Iteration over a [set]

    The order in which Python iterates over a [set] is left open by the
    language; it only promises every element once.  The methods below are
    parameterised by such an order. *)

Class SetIter := {
  set_iter : gset Z → list Z;
  set_iter_perm : ∀ s, set_iter s ≡ₚ elements s
}.

(** Two concrete orders: the one of stdpp's [elements], and increasing
    order. *)
Definition elements_iter : SetIter :=
  {| set_iter := elements; set_iter_perm := λ s, reflexivity (elements s) |}.

Definition sorted_iter : SetIter :=
  {| set_iter := λ s, merge_sort Z.le (elements s);
     set_iter_perm := λ s, merge_sort_Permutation Z.le (elements s) |}.

(** ** Methods of [GroupAllocator] *)

(** The first [if]/[elif]/[else] of [get_allowed_groups]: the copied period
    set, or nothing on the [else] branch, which returns at once. *)
Definition period_groups (periode : string) : option (gset Z) :=
  if String.eqb periode "P1" then Some p1_groups
  else if String.eqb periode "P2" then Some p2_groups
  else None.

Section Allocator.

Context `{SetIter}.

(** The list comprehension
    [[g for g in allowed if self.group_counts[g] < self.capacities[g]]]. *)
Fixpoint keep_available (gs : list Z) : M (list Z) :=
  match gs with
  | [] => mret []
  | g :: gs' =>
      c ← counts_getitem g;
      cap ← capacities_getitem g;
      rest ← keep_available gs';
      mret (if c <? cap then g :: rest else rest)
  end.

Definition get_allowed_groups (periode : string) (stage_oui : bool)
  : M (list Z) :=
  match period_groups periode with
  | None => mret []
  | Some allowed =>
      let allowed :=
        if stage_oui then allowed ∖ stage_forbidden else allowed in
      allowed ← keep_available (set_iter allowed);
      mret (merge_sort Z.le allowed)
  end.

Definition score_group (group : Z) (source_groupe metier : string)
  : M score :=
  c ← counts_getitem group;
  s ← source_groupes_getitem group source_groupe;
  m ← metiers_getitem group metier;
  mret (c, s, m, group).

(** [min(iterable, key=...)]: the key of every item is computed once, in
    order, and an item replaces the current one only when its key is
    strictly smaller. *)
Fixpoint min_loop (key : Z → M score) (best : Z) (best_key : score)
  (gs : list Z) : M Z :=
  match gs with
  | [] => mret best
  | g :: gs' =>
      k ← key g;
      if tuple_lt k best_key then min_loop key g k gs'
      else min_loop key best best_key gs'
  end.

Definition allocate_student (periode : string) (stage_oui : bool)
  (source_groupe metier : string) : M (option Z) :=
  allowed_groups ← get_allowed_groups periode stage_oui;
  match allowed_groups with
  | [] => mret None
  | g0 :: gs =>
      k0 ← score_group g0 source_groupe metier;
      best_group ←
        min_loop (λ g, score_group g source_groupe metier) g0 k0 gs;
      c ← counts_getitem best_group;
      _ ← counts_setitem best_group (c + 1);
      s ← source_groupes_getitem best_group source_groupe;
      _ ← source_groupes_setitem best_group source_groupe (s + 1);
      m ← metiers_getitem best_group metier;
      _ ← metiers_setitem best_group metier (m + 1);
      mret (Some best_group)
  end.

Definition validate_allocation (group : Z) (periode : string)
  (stage_oui : bool) : M bool :=
  c ← counts_getitem group;
  cap ← capacities_getitem group;
  if cap <? c then mret false
  else if String.eqb periode "P1" && negb (bool_decide (group ∈ p1_groups))
  then mret false
  else if String.eqb periode "P2" && negb (bool_decide (group ∈ p2_groups))
  then mret false
  else if stage_oui && bool_decide (group ∈ stage_forbidden)
  then mret false
  else mret true.

End Allocator.

(** ** Records and the allocation loop of [main] *)

(** The dictionary built for each line by [read_data_source]. *)
Record Row := mkRow {
  line_num : string;
  metier : string;
  choix_master : string;
  groupe : string;
  stage : string;
  periode : string;
  nouveau_groupe : string
}.

(** The body of the loop of [read_data_source], on the fields of one line:
    a line of fewer than six fields is dropped, a missing seventh field
    reads as the empty string. *)
Definition read_row (parts : list string) : option Row :=
  match parts with
  | p0 :: p1 :: p2 :: p3 :: p4 :: p5 :: rest =>
      Some (mkRow p0 p1 p2 p3 p4 p5
              (match rest with p6 :: _ => p6 | [] => "" end))
  | _ => None
  end.

(** [row['nouveau_groupe'] = v]. *)
Definition set_nouveau_groupe (v : string) (r : Row) : Row :=
  mkRow (line_num r) (metier r) (choix_master r) (groupe r) (stage r)
        (periode r) v.

(** How the loop of [main] ends: it runs through every row, or stops with
    [sys.exit(code)], or an exception escapes. *)
Inductive outcome : Type :=
  | Completed (rows : list Row) (st : GroupAllocator)
  | SysExit (code : Z)
  | Uncaught (k : Z).

(** The row just handled, in front of what the rest of the loop gives. *)
Definition and_then (row : Row) (o : outcome) : outcome :=
  match o with
  | Completed done st => Completed (row :: done) st
  | SysExit code => SysExit code
  | Uncaught k => Uncaught k
  end.

Section Main.

Context `{SetIter}.

(** [for row in rows: ...] of [main], from allocator state [st]. *)
Fixpoint allocate_rows (rows : list Row) (st : GroupAllocator) : outcome :=
  match rows with
  | [] => Completed [] st
  | row :: rows' =>
      let stage_oui := String.eqb (stage row) "oui" in
      match allocate_student (periode row) stage_oui (groupe row)
              (metier row) st with
      | (KeyError k, _) => Uncaught k
      | (Ok (Some group), st1) =>
          let row' := set_nouveau_groupe (pretty group) row in
          match validate_allocation group (periode row) stage_oui st1 with
          | (KeyError k, _) => Uncaught k
          | (Ok false, _) => SysExit 1
          | (Ok true, st2) => and_then row' (allocate_rows rows' st2)
          end
      | (Ok None, st1) =>
          let row' := set_nouveau_groupe "" row in
          and_then row' (allocate_rows rows' st1)
      end
  end.

(** [allocator = GroupAllocator()] followed by the loop. *)
Definition main_loop (rows : list Row) : outcome := allocate_rows rows init.

End Main.

(** * Vocabulary of the specification *)

(** ** What the counters read as

    A [defaultdict] answers the default for a key it does not hold; these
    are the values the three counters read as in a state. *)

Definition count (st : GroupAllocator) (g : Z) : Z :=
  default 0 (group_counts st !! g).

Definition nested_count (h : gmap Z (gmap string Z)) (g : Z) (k : string)
  : Z :=
  default 0 (h !! g ≫= (.!! k)).

Definition source_count (st : GroupAllocator) (g : Z) (k : string) : Z :=
  nested_count (group_source_groupes st) g k.

Definition metier_count (st : GroupAllocator) (g : Z) (k : string) : Z :=
  nested_count (group_metiers st) g k.

(** Two states in which every counter reads the same. *)
Definition same_view (st st' : GroupAllocator) : Prop :=
  (∀ g, count st' g = count st g) ∧
  (∀ g k, source_count st' g k = source_count st g k) ∧
  (∀ g k, metier_count st' g k = metier_count st g k).

(** The capacity of a group, 0 outside the table. *)
Definition capacity (g : Z) : Z := default 0 (capacities !! g).

(** The groups a student may enter, whatever their occupancy. *)
Definition eligible (periode : string) (stage_oui : bool) : gset Z :=
  match period_groups periode with
  | None => ∅
  | Some allowed =>
      if stage_oui then allowed ∖ stage_forbidden else allowed
  end.

(** The tuple [score_group] computes, from what the counters read as. *)
Definition score_of (st : GroupAllocator) (source_groupe metier : string)
  (g : Z) : score :=
  (count st g, source_count st g source_groupe, metier_count st g metier, g).

(** A group of the eligibility set with room left. *)
Definition available (st : GroupAllocator) (periode : string)
  (stage_oui : bool) (g : Z) : Prop :=
  g ∈ eligible periode stage_oui ∧ count st g < capacity g.

(** [st'] is [st] with one more student of the given labels in [g]. *)
Definition placed (st : GroupAllocator) (g : Z)
  (source_groupe metier : string) (st' : GroupAllocator) : Prop :=
  (∀ h, count st' h = if decide (h = g) then count st h + 1 else count st h) ∧
  (∀ h k, source_count st' h k =
          if decide (h = g ∧ k = source_groupe) then source_count st h k + 1
          else source_count st h k) ∧
  (∀ h k, metier_count st' h k =
          if decide (h = g ∧ k = metier) then metier_count st h k + 1
          else metier_count st h k).

(** What [self.group_counts[g]] leaves behind: the key [g], with the
    default when it was missing. *)
Definition touch_count (g : Z) (st : GroupAllocator) : GroupAllocator :=
  match group_counts st !! g with
  | Some _ => st
  | None => with_counts (<[g := 0]>) st
  end.

(** What the list comprehension leaves behind. *)
Definition touch_counts (gs : list Z) (st : GroupAllocator) : GroupAllocator :=
  foldl (λ st g, touch_count g st) st gs.

(** The sorted list of the groups with room left, for a period and a
    stage flag. *)
Definition allowed_list (st : GroupAllocator) (periode : string)
  (stage_oui : bool) : list Z :=
  merge_sort Z.le
    (filter (λ g, count st g < capacity g)
            (elements (eligible periode stage_oui))).

(** No group of the table holds more students than its capacity. *)
Definition within_capacity (st : GroupAllocator) : Prop :=
  ∀ g, 1 ≤ g ≤ 23 → count st g ≤ capacity g.

(** The arguments of one call of [allocate_student]. *)
Definition call : Type := string * bool * string * string.

(** The capacities as the documentation of the module states them. *)
Definition stated_capacity (g : Z) : Z :=
  if g <=? 4 then 8 else if g <=? 22 then 7 else 6.

(** Lexicographic order on scores, written out. *)
Definition lex_lt (a b : score) : Prop :=
  let '(a1, a2, a3, a4) := a in
  let '(b1, b2, b3, b4) := b in
  a1 < b1 ∨ a1 = b1 ∧ (a2 < b2 ∨ a2 = b2 ∧ (a3 < b3 ∨ a3 = b3 ∧ a4 < b4)).

(** Every group of the eligibility set is exactly full. *)
Definition exhausted (st : GroupAllocator) (periode : string)
  (stage_oui : bool) : Prop :=
  ∀ g, g ∈ eligible periode stage_oui → count st g = capacity g.

(** Two lists of records that differ at most in [nouveau_groupe]. *)
Definition same_but_destination (rows1 rows2 : list Row) : Prop :=
  set_nouveau_groupe "" <$> rows1 = set_nouveau_groupe "" <$> rows2.

(** [row'] is [row] with its destination overwritten by the decimal string
    of a group of the table, or by the empty string. *)
Definition destination_written (row row' : Row) : Prop :=
  row' = set_nouveau_groupe "" row ∨
  ∃ g, 1 ≤ g ≤ 23 ∧ row' = set_nouveau_groupe (pretty g) row.

Section Calls.

Context `{SetIter}.

Definition allocate_call (c : call) : M (option Z) :=
  let '(periode, stage_oui, source_groupe, metier) := c in
  allocate_student periode stage_oui source_groupe metier.

(** The state after a sequence of calls of [allocate_student]. *)
Fixpoint after_calls (cs : list call) (st : GroupAllocator) : GroupAllocator :=
  match cs with
  | [] => st
  | c :: cs' => after_calls cs' (allocate_call c st).2
  end.

(** The calls of a sequence, each with the group it returned. *)
Fixpoint returned (cs : list call) (st : GroupAllocator)
  : list (call * option Z) :=
  match cs with
  | [] => []
  | c :: cs' =>
      let r := allocate_call c st in
      (c, match r.1 with Ok o => o | KeyError _ => None end)
        :: returned cs' r.2
  end.

End Calls.

(** How many calls of a sequence satisfy a test on their arguments and
    result. *)
Fixpoint tally (P : call → option Z → bool) (tr : list (call * option Z))
  : Z :=
  match tr with
  | [] => 0
  | (c, r) :: tr' => (if P c r then 1 else 0) + tally P tr'
  end.

(** The students placed in [g]; those of them with source group [k]; those
    of them with profession [k]. *)
Definition placed_in (g : Z) (c : call) (r : option Z) : bool :=
  bool_decide (r = Some g).

Definition placed_in_from (g : Z) (k : string) (c : call) (r : option Z)
  : bool :=
  bool_decide (r = Some g ∧ c.1.2 = k).

Definition placed_in_as (g : Z) (k : string) (c : call) (r : option Z)
  : bool :=
  bool_decide (r = Some g ∧ c.2 = k).

(** * The data file, the summary and the report *)

(** ** Text files *)

(** The three characters the loader and the text layer look at. *)
Definition TAB : Ascii.ascii := "009"%char.
Definition LF : Ascii.ascii := "010"%char.
Definition CR : Ascii.ascii := "013"%char.

(** [os.linesep]: the two values it takes. *)
Inductive platform : Type := Posix | Windows.

(** What a text file opened with ['w'] stores for the text written to it:
    every line feed becomes [os.linesep]. *)
Fixpoint file_write (os : platform) (text : string) : string :=
  match text with
  | EmptyString => EmptyString
  | String c text' =>
      if Ascii.eqb c LF then
        match os with
        | Posix => String LF (file_write os text')
        | Windows => String CR (String LF (file_write os text'))
        end
      else String c (file_write os text')
  end.

(** What a text file opened with ['r'] delivers for the stored text: a
    carriage return, alone or followed by a line feed, reads as one line
    feed. *)
Fixpoint file_read (stored : string) : string :=
  match stored with
  | EmptyString => EmptyString
  | String c stored' =>
      if Ascii.eqb c CR then
        match stored' with
        | String c' stored'' =>
            if Ascii.eqb c' LF then String LF (file_read stored'')
            else String LF (file_read stored')
        | EmptyString => String LF EmptyString
        end
      else String c (file_read stored')
  end.

(** [f.readlines()]: the lines of a text, each with its line feed, the
    last one possibly without. *)
Fixpoint readlines (text : string) : list string :=
  match text with
  | EmptyString => []
  | String c text' =>
      if Ascii.eqb c LF then String c EmptyString :: readlines text'
      else
        match readlines text' with
        | line :: lines => String c line :: lines
        | [] => [String c EmptyString]
        end
  end.

(** [s.rstrip('\n')]: [s] without its trailing line feeds. *)
Fixpoint rstrip_newline (s : string) : string :=
  match s with
  | EmptyString => EmptyString
  | String c s' =>
      match rstrip_newline s' with
      | EmptyString =>
          if Ascii.eqb c LF then EmptyString else String c EmptyString
      | r => String c r
      end
  end.

(** [s.split('\t')]. *)
Fixpoint split_tab (s : string) : list string :=
  match s with
  | EmptyString => [EmptyString]
  | String c s' =>
      if Ascii.eqb c TAB then EmptyString :: split_tab s'
      else
        match split_tab s' with
        | part :: parts => String c part :: parts
        | [] => [String c EmptyString]
        end
  end.

(** ['\t'.join(parts)]. *)
Fixpoint join_tab (parts : list string) : string :=
  match parts with
  | [] => EmptyString
  | [part] => part
  | part :: parts' => part +:+ String TAB (join_tab parts')
  end.

(** What [read_data_source] returns, or the [IndexError] of [lines[0]] on
    a file without any line. *)
Inductive loaded : Type :=
  | Loaded (header : string) (rows : list Row)
  | IndexError.

(** One turn of the loop of [read_data_source]: the row a line gives, if
    it has six fields. *)
Definition parse_line (line : string) : option Row :=
  read_row (split_tab (rstrip_newline line)).

(** [read_data_source], on the stored text of the file once decoded (see
    [read_data_file] for the bytes). *)
Definition read_data_source (stored : string) : loaded :=
  match readlines (file_read stored) with
  | [] => IndexError
  | line0 :: lines => Loaded (rstrip_newline line0) (omap parse_line lines)
  end.

(** The line [write_data_source] writes for one row. *)
Definition row_line (row : Row) : string :=
  join_tab [line_num row; metier row; choix_master row; groupe row;
            stage row; periode row; nouveau_groupe row]
  +:+ String LF EmptyString.

(** The text [write_data_source] writes, one [f.write] after the other. *)
Definition written_text (header : string) (rows : list Row) : string :=
  (header +:+ String LF EmptyString)
  +:+ foldr (λ row rest, row_line row +:+ rest) EmptyString rows.

(** [write_data_source]: the stored text of the file afterwards. *)
Definition write_data_source (os : platform) (header : string)
  (rows : list Row) : string :=
  file_write os (written_text header rows).

(** ** [main] from file to file *)

(** How [main] leaves [data_source.txt]: rewritten, or untouched because
    the run stopped before [write_data_source]. *)
Inductive main_end : Type :=
  | Rewritten (stored : string)
  | RaisedIndexError
  | Exited (code : Z)
  | RaisedKeyError (k : Z).

Section MainFile.

Context `{SetIter}.

(** [main] up to and including [write_data_source], on the stored text of
    [data_source.txt]. *)
Definition main_data_file (os : platform) (stored : string) : main_end :=
  match read_data_source stored with
  | IndexError => RaisedIndexError
  | Loaded header rows =>
      match main_loop rows with
      | Completed rows' _ => Rewritten (write_data_source os header rows')
      | SysExit code => Exited code
      | Uncaught k => RaisedKeyError k
      end
  end.

End MainFile.

(** Truth value of a string: it is not empty. *)
Definition truthy (s : string) : bool :=
  match s with
  | EmptyString => false
  | String _ _ => true
  end.

(** [sum(1 for r in rows if r['nouveau_groupe'])], the [assigned] of the
    summary of [main]. *)
Fixpoint assigned (rows : list Row) : Z :=
  match rows with
  | [] => 0
  | r :: rows' =>
      if truthy (nouveau_groupe r) then 1 + assigned rows' else assigned rows'
  end.

(** The three numbers of the summary: total, assigned, unassigned. *)
Definition summary (rows : list Row) : Z * Z * Z :=
  (Z.of_nat (length rows), assigned rows,
   Z.of_nat (length rows) - assigned rows).

(** ** What the validation report finds *)

(** Section 1: for each group of [gs] its count, its capacity, and whether
    its status is ["OK"], that is [count <= capacity]. *)
Fixpoint group_statuses (gs : list Z) : M (list (Z * Z * Z * bool)) :=
  match gs with
  | [] => mret []
  | g :: gs' =>
      c ← counts_getitem g;
      cap ← capacities_getitem g;
      rest ← group_statuses gs';
      mret ((g, c, cap, c <=? cap) :: rest)
  end.

(** Section 2: the groups reported over capacity,
    [allocator.group_counts[g] > allocator.capacities[g]] for [g] in
    [gs]. *)
Fixpoint over_capacity (gs : list Z) : M (list Z) :=
  match gs with
  | [] => mret []
  | g :: gs' =>
      c ← counts_getitem g;
      cap ← capacities_getitem g;
      rest ← over_capacity gs';
      mret (if cap <? c then g :: rest else rest)
  end.

(** Section 3: [[r for r in rows if not r['nouveau_groupe']]]. *)
Definition unassigned (rows : list Row) : list Row :=
  List.filter (λ r, negb (truthy (nouveau_groupe r))) rows.

Section Report.

(** [int(s)] on the strings the report reads; [None] is [ValueError]. *)
Variable int : string → option Z.

(** Section 4: the rows appended to [p1_violations] and to
    [p2_violations]. *)
Fixpoint period_violations (rows : list Row)
  : option (list Row * list Row) :=
  match rows with
  | [] => Some ([], [])
  | r :: rows' =>
      if truthy (nouveau_groupe r) then
        group ← int (nouveau_groupe r);
        '(p1, p2) ← period_violations rows';
        if String.eqb (periode r) "P1"
           && negb (bool_decide (group ∈ p1_groups))
        then Some (r :: p1, p2)
        else if String.eqb (periode r) "P2"
                && negb (bool_decide (group ∈ p2_groups))
        then Some (p1, r :: p2)
        else Some (p1, p2)
      else period_violations rows'
  end.

(** Section 5: the rows appended to [stage_violations]. *)
Fixpoint stage_violations (rows : list Row) : option (list Row) :=
  match rows with
  | [] => Some []
  | r :: rows' =>
      if truthy (nouveau_groupe r) && String.eqb (stage r) "oui" then
        group ← int (nouveau_groupe r);
        rest ← stage_violations rows';
        if bool_decide (group ∈ stage_forbidden) then Some (r :: rest)
        else Some rest
      else stage_violations rows'
  end.

End Report.

(** A reader of decimal digits, for the strings [str] prints for the groups
    of the table: digits only, at least one. *)
Definition digit_value (c : Ascii.ascii) : option Z :=
  let n := Z.of_N (N_of_ascii c) in
  if (48 <=? n) && (n <=? 57) then Some (n - 48) else None.

Fixpoint digits_value (acc : Z) (s : string) : option Z :=
  match s with
  | EmptyString => Some acc
  | String c s' =>
      match digit_value c with
      | Some d => digits_value (acc * 10 + d) s'
      | None => None
      end
  end.

Definition decimal_int (s : string) : option Z :=
  match s with
  | EmptyString => None
  | _ => digits_value 0 s
  end.

(** [c in s] for a character [c]. *)
Fixpoint has_char (c : Ascii.ascii) (s : string) : bool :=
  match s with
  | EmptyString => false
  | String c' s' => Ascii.eqb c' c || has_char c s'
  end.

(** A string without any of the three characters the file format gives a
    meaning to, and a row made of such strings. *)
Definition plain (s : string) : Prop :=
  has_char TAB s = false ∧ has_char LF s = false ∧ has_char CR s = false.

Definition plain_row (r : Row) : Prop :=
  plain (line_num r) ∧ plain (metier r) ∧ plain (choix_master r) ∧
  plain (groupe r) ∧ plain (stage r) ∧ plain (periode r) ∧
  plain (nouveau_groupe r).

(** The occupancy of the whole table. *)
Definition total_count (st : GroupAllocator) : Z :=
  foldr (λ g n, count st g + n) 0 (range 1 24).

(** [r'] is [r] with its destination emptied, or set to the decimal string
    of a group of the eligibility set of [r]. *)
Definition allocated_row (r r' : Row) : Prop :=
  r' = set_nouveau_groupe EmptyString r ∨
  ∃ g, g ∈ eligible (periode r) (String.eqb (stage r) "oui") ∧
       r' = set_nouveau_groupe (pretty g) r.

(** Two groups open to the same students: both in 1-4, both in 5-16, or
    both in 17-23. *)
Definition same_block (g h : Z) : Prop :=
  1 ≤ g ≤ 4 ∧ 1 ≤ h ≤ 4 ∨ 5 ≤ g ≤ 16 ∧ 5 ≤ h ≤ 16 ∨
  17 ≤ g ≤ 23 ∧ 17 ≤ h ≤ 23.

(** Occupancies inside a block differ by at most one, unless the smaller
    group is full. *)
Definition balanced (st : GroupAllocator) : Prop :=
  ∀ g h, same_block g h →
         count st g ≤ count st h + 1 ∨ capacity h ≤ count st h.


(** ** Decoding

    The text of a file is kept as its UTF-8 bytes.  The characters the code
    looks at (tab, line feed, carriage return) are single bytes that occur
    inside no longer sequence, so that splitting and stripping the bytes is
    splitting and stripping the text; what decoding adds is the
    [UnicodeDecodeError] on bytes that are not UTF-8. *)

(** A byte as a number. *)
Definition byte (b : Ascii.ascii) : Z := Z.of_N (N_of_ascii b).

Definition continuation (b : Ascii.ascii) : bool :=
  (128 <=? byte b) && (byte b <? 192).

(** The strict UTF-8 decoder accepts the bytes: the branches of the
    decoder, by the first byte of each sequence. *)
Fixpoint utf8_valid (bytes : string) : bool :=
  match bytes with
  | EmptyString => true
  | String b0 s1 =>
      let ch := byte b0 in
      if ch <? 128 then utf8_valid s1
      else if ch <? 224 then
        if ch <? 194 then false
        else
          match s1 with
          | String b1 s2 => continuation b1 && utf8_valid s2
          | _ => false
          end
      else if ch <? 240 then
        match s1 with
        | String b1 (String b2 s3) =>
            continuation b1 && continuation b2
            && negb ((ch =? 224) && (byte b1 <? 160))
            && negb ((ch =? 237) && (160 <=? byte b1))
            && utf8_valid s3
        | _ => false
        end
      else if ch <? 245 then
        match s1 with
        | String b1 (String b2 (String b3 s4)) =>
            continuation b1 && continuation b2 && continuation b3
            && negb ((ch =? 240) && (byte b1 <? 144))
            && negb ((ch =? 244) && (144 <=? byte b1))
            && utf8_valid s4
        | _ => false
        end
      else false
  end.

(** A result, or the [UnicodeDecodeError] of reading the file. *)
Inductive decoded (A : Type) : Type :=
  | Decoded (a : A)
  | UnicodeDecodeError.
Arguments Decoded {A} a.
Arguments UnicodeDecodeError {A}.

(** [read_data_source] on the bytes of the file. *)
Definition read_data_file (bytes : string) : decoded loaded :=
  if utf8_valid bytes then Decoded (read_data_source bytes)
  else UnicodeDecodeError.

Section MainBytes.
Context `{SetIter}.

(** [main] up to and including [write_data_source], on the bytes of
    [data_source.txt]. *)
Definition main_on_file (os : platform) (bytes : string) : decoded main_end :=
  if utf8_valid bytes then Decoded (main_data_file os bytes)
  else UnicodeDecodeError.

End MainBytes.

(** Well-formed UTF-8, as the table of the Unicode standard gives it:
    the ranges of the first and second byte of a sequence of two, three
    and four bytes. *)
Definition three_bytes (a b : Z) : Prop :=
  a = 224 ∧ 160 ≤ b ≤ 191 ∨ 225 ≤ a ≤ 236 ∧ 128 ≤ b ≤ 191 ∨
  a = 237 ∧ 128 ≤ b ≤ 159 ∨ 238 ≤ a ≤ 239 ∧ 128 ≤ b ≤ 191.

Definition four_bytes (a b : Z) : Prop :=
  a = 240 ∧ 144 ≤ b ≤ 191 ∨ 241 ≤ a ≤ 243 ∧ 128 ≤ b ≤ 191 ∨
  a = 244 ∧ 128 ≤ b ≤ 143.

Inductive well_formed_utf8 : string → Prop :=
  | wf_end : well_formed_utf8 EmptyString
  | wf_one b0 s :
      0 ≤ byte b0 ≤ 127 → well_formed_utf8 s →
      well_formed_utf8 (String b0 s)
  | wf_two b0 b1 s :
      194 ≤ byte b0 ≤ 223 → 128 ≤ byte b1 ≤ 191 → well_formed_utf8 s →
      well_formed_utf8 (String b0 (String b1 s))
  | wf_three b0 b1 b2 s :
      three_bytes (byte b0) (byte b1) → 128 ≤ byte b2 ≤ 191 →
      well_formed_utf8 s →
      well_formed_utf8 (String b0 (String b1 (String b2 s)))
  | wf_four b0 b1 b2 b3 s :
      four_bytes (byte b0) (byte b1) → 128 ≤ byte b2 ≤ 191 →
      128 ≤ byte b3 ≤ 191 → well_formed_utf8 s →
      well_formed_utf8 (String b0 (String b1 (String b2 (String b3 s)))).

(** * Properties *)

(** ** The monad *)

Lemma bind_ok {A B} (m : M A) (k : A → M B) st a st' :
  m st = (Ok a, st') → (m ≫= k) st = k a st'.
Proof. intros E. unfold mbind, M_bind. by rewrite E. Qed.

Lemma ret_eq {A} (a : A) st : (mret a : M A) st = (Ok a, st).
Proof. reflexivity. Qed.

(** ** The order on tuples *)

Lemma tuple_lt_spec a1 a2 a3 a4 b1 b2 b3 b4 :
  tuple_lt (a1, a2, a3, a4) (b1, b2, b3, b4) = true ↔
  a1 < b1 ∨ a1 = b1 ∧ (a2 < b2 ∨ a2 = b2 ∧ (a3 < b3 ∨ a3 = b3 ∧ a4 < b4)).
Proof.
  unfold tuple_lt.
  destruct (Z.eqb_spec a1 b1), (Z.eqb_spec a2 b2), (Z.eqb_spec a3 b3);
    simpl; rewrite Z.ltb_lt; lia.
Qed.

Ltac tuples :=
  repeat match goal with
         | a : score |- _ => destruct a as [[[? ?] ?] ?]
         end;
  rewrite ?tuple_lt_spec, ?not_true_iff_false, <- ?not_true_iff_false,
    ?tuple_lt_spec in *.

Lemma tuple_lt_trans a b c :
  tuple_lt a b = true → tuple_lt b c = true → tuple_lt a c = true.
Proof. tuples. lia. Qed.

Lemma tuple_lt_irrefl a : tuple_lt a a = false.
Proof. apply not_true_iff_false. tuples. lia. Qed.

Lemma tuple_lt_le_trans a b c :
  tuple_lt b a = false → tuple_lt b c = true → tuple_lt a c = true.
Proof.
  rewrite <- !not_true_iff_false. tuples. lia.
Qed.

Lemma tuple_lt_total a b :
  tuple_lt a b = false → a.2 ≠ b.2 → tuple_lt b a = true.
Proof.
  rewrite <- !not_true_iff_false. destruct a as [[[? ?] ?] ?], b as [[[? ?] ?] ?].
  rewrite !tuple_lt_spec. simpl. lia.
Qed.

(** ** The capacity table *)

Lemma group_cases (g : Z) :
  1 ≤ g ≤ 23 →
  g = 1 ∨ g = 2 ∨ g = 3 ∨ g = 4 ∨ g = 5 ∨ g = 6 ∨ g = 7 ∨ g = 8 ∨ g = 9 ∨
  g = 10 ∨ g = 11 ∨ g = 12 ∨ g = 13 ∨ g = 14 ∨ g = 15 ∨ g = 16 ∨ g = 17 ∨
  g = 18 ∨ g = 19 ∨ g = 20 ∨ g = 21 ∨ g = 22 ∨ g = 23.
Proof. lia. Qed.

Lemma capacities_lookup (g : Z) :
  1 ≤ g ≤ 23 →
  capacities !! g = Some (if g <=? 4 then 8 else if g <=? 22 then 7 else 6).
Proof.
  intros Hg. apply group_cases in Hg.
  destruct_or!; subst g; by vm_compute.
Qed.

Lemma capacity_eq (g : Z) :
  1 ≤ g ≤ 23 →
  capacity g = if g <=? 4 then 8 else if g <=? 22 then 7 else 6.
Proof. intros Hg. unfold capacity. by rewrite capacities_lookup. Qed.

Lemma p1_groups_spec g :
  g ∈ p1_groups ↔ 1 ≤ g ≤ 4 ∨ 17 ≤ g ≤ 23.
Proof. unfold p1_groups. set_unfold. lia. Qed.

Lemma p2_groups_spec g : g ∈ p2_groups ↔ 1 ≤ g ≤ 16.
Proof. unfold p2_groups. set_unfold. lia. Qed.

Lemma stage_forbidden_spec g : g ∈ stage_forbidden ↔ 1 ≤ g ≤ 4.
Proof. unfold stage_forbidden. set_unfold. lia. Qed.

Lemma period_groups_range periode s g :
  period_groups periode = Some s → g ∈ s → 1 ≤ g ≤ 23.
Proof.
  unfold period_groups. intros E Hg.
  destruct (String.eqb periode "P1");
    [|destruct (String.eqb periode "P2")]; simplify_eq.
  - apply p1_groups_spec in Hg. lia.
  - apply p2_groups_spec in Hg. lia.
Qed.

Lemma eligible_range periode stage_oui g :
  g ∈ eligible periode stage_oui → 1 ≤ g ≤ 23.
Proof.
  unfold eligible. destruct (period_groups periode) as [s|] eqn:E.
  - intros Hg. apply (period_groups_range _ _ _ E).
    destruct stage_oui; [by apply elem_of_difference in Hg as [? _] | done].
  - by intros ?%elem_of_empty.
Qed.

Lemma eligible_spec periode stage_oui g :
  g ∈ eligible periode stage_oui ↔
  (periode = "P1" ∧ (1 ≤ g ≤ 4 ∨ 17 ≤ g ≤ 23) ∨
   periode = "P2" ∧ 1 ≤ g ≤ 16) ∧
  (stage_oui = true → ¬ 1 ≤ g ≤ 4).
Proof.
  unfold eligible, period_groups.
  destruct (String.eqb_spec periode "P1") as [->|N1];
    [|destruct (String.eqb_spec periode "P2") as [->|N2]].
  3: { rewrite elem_of_empty; tauto. }
  all: destruct stage_oui;
     rewrite ?elem_of_difference, ?p1_groups_spec, ?p2_groups_spec,
       ?stage_forbidden_spec.
  all: split; [intros ?|intros [[[? ?]|[? ?]] ?]]; try discriminate.
  all: try tauto.
  all: split; [tauto|]; intros; try discriminate; tauto.
Qed.

(** ** Reading the counters *)

Lemma same_view_refl st : same_view st st.
Proof. by repeat split. Qed.

Lemma same_view_trans st1 st2 st3 :
  same_view st1 st2 → same_view st2 st3 → same_view st1 st3.
Proof.
  intros (A1 & B1 & C1) (A2 & B2 & C2). repeat split; intros.
  - by rewrite A2, A1.
  - by rewrite B2, B1.
  - by rewrite C2, C1.
Qed.

Lemma score_of_same_view st st' sg m g :
  same_view st st' → score_of st' sg m g = score_of st sg m g.
Proof. intros (A & B & C). unfold score_of. by rewrite A, B, C. Qed.

Lemma counts_getitem_eq g st :
  counts_getitem g st = (Ok (count st g), touch_count g st).
Proof.
  unfold counts_getitem, count, touch_count.
  by destruct (group_counts st !! g).
Qed.

Lemma count_touch_count g st h : count (touch_count g st) h = count st h.
Proof.
  unfold touch_count, count.
  destruct (group_counts st !! g) eqn:E; [done|]. simpl.
  destruct (decide (g = h)) as [->|N].
  - by rewrite lookup_insert_eq, E.
  - by rewrite lookup_insert_ne.
Qed.

Lemma touch_count_same_view g st : same_view st (touch_count g st).
Proof.
  split; [apply count_touch_count|].
  unfold touch_count, source_count, metier_count.
  by destruct (group_counts st !! g).
Qed.

Lemma touch_count_id g st :
  is_Some (group_counts st !! g) → touch_count g st = st.
Proof. intros [c E]. unfold touch_count. by rewrite E. Qed.

Lemma nested_getitem_value h g k :
  (nested_getitem h g k).1 = nested_count h g k.
Proof.
  unfold nested_getitem, nested_count.
  destruct (h !! g) as [d|]; simpl; [|done].
  by destruct (d !! k).
Qed.

Lemma nested_getitem_count h g k g' k' :
  nested_count (nested_getitem h g k).2 g' k' = nested_count h g' k'.
Proof.
  unfold nested_getitem, nested_count.
  destruct (h !! g) as [d|] eqn:E; simpl.
  - destruct (d !! k) eqn:E'; simpl; [done|].
    destruct (decide (g = g')) as [->|N].
    + rewrite lookup_insert_eq, E. simpl.
      destruct (decide (k = k')) as [->|N'].
      * by rewrite lookup_insert_eq, E'.
      * by rewrite lookup_insert_ne.
    + by rewrite lookup_insert_ne.
  - destruct (decide (g = g')) as [->|N].
    + rewrite lookup_insert_eq, E. simpl.
      destruct (decide (k = k')) as [->|N'].
      * by rewrite lookup_singleton_eq.
      * by rewrite lookup_singleton_ne.
    + by rewrite lookup_insert_ne.
Qed.

Lemma nested_setitem_count h g k v g' k' :
  nested_count (nested_setitem h g k v) g' k' =
  if decide (g' = g ∧ k' = k) then v else nested_count h g' k'.
Proof.
  unfold nested_setitem, nested_count.
  destruct (decide (g = g')) as [->|N].
  - rewrite lookup_insert_eq. simpl.
    destruct (decide (k = k')) as [->|N'].
    + rewrite lookup_insert_eq. by rewrite decide_True.
    + rewrite lookup_insert_ne by done. rewrite decide_False by (intros [? ?]; congruence).
      by destruct (h !! g').
  - rewrite lookup_insert_ne by done. by rewrite decide_False by (intros [? ?]; congruence).
Qed.

Lemma source_groupes_getitem_eq g k st :
  ∃ st', source_groupes_getitem g k st = (Ok (source_count st g k), st') ∧
         same_view st st'.
Proof.
  unfold source_groupes_getitem, source_count.
  pose proof (nested_getitem_value (group_source_groupes st) g k) as V.
  pose proof (nested_getitem_count (group_source_groupes st) g k) as C.
  destruct (nested_getitem (group_source_groupes st) g k) as [c h].
  simpl in *. subst c. eexists. split; [done|]. by repeat split.
Qed.

Lemma metiers_getitem_eq g k st :
  ∃ st', metiers_getitem g k st = (Ok (metier_count st g k), st') ∧
         same_view st st'.
Proof.
  unfold metiers_getitem, metier_count.
  pose proof (nested_getitem_value (group_metiers st) g k) as V.
  pose proof (nested_getitem_count (group_metiers st) g k) as C.
  destruct (nested_getitem (group_metiers st) g k) as [c h].
  simpl in *. subst c. eexists. split; [done|]. by repeat split.
Qed.

Lemma counts_setitem_eq g v st :
  ∃ st', counts_setitem g v st = (Ok tt, st') ∧
         (∀ h, count st' h = if decide (h = g) then v else count st h) ∧
         (∀ h k, source_count st' h k = source_count st h k) ∧
         (∀ h k, metier_count st' h k = metier_count st h k).
Proof.
  eexists. split; [done|]. repeat split. intros h. unfold count. simpl.
  destruct (decide (h = g)) as [->|N].
  - by rewrite lookup_insert_eq.
  - by rewrite lookup_insert_ne.
Qed.

Lemma source_groupes_setitem_eq g k v st :
  ∃ st', source_groupes_setitem g k v st = (Ok tt, st') ∧
         (∀ h, count st' h = count st h) ∧
         (∀ h k', source_count st' h k' =
                  if decide (h = g ∧ k' = k) then v else source_count st h k') ∧
         (∀ h k', metier_count st' h k' = metier_count st h k').
Proof.
  eexists. split; [done|]. repeat split. intros h k'.
  apply nested_setitem_count.
Qed.

Lemma metiers_setitem_eq g k v st :
  ∃ st', metiers_setitem g k v st = (Ok tt, st') ∧
         (∀ h, count st' h = count st h) ∧
         (∀ h k', source_count st' h k' = source_count st h k') ∧
         (∀ h k', metier_count st' h k' =
                  if decide (h = g ∧ k' = k) then v else metier_count st h k').
Proof.
  eexists. split; [done|]. repeat split. intros h k'.
  apply nested_setitem_count.
Qed.

Lemma capacities_getitem_eq g st :
  1 ≤ g ≤ 23 → capacities_getitem g st = (Ok (capacity g), st).
Proof.
  intros Hg. unfold capacities_getitem, capacity.
  by rewrite (capacities_lookup g Hg).
Qed.

(** ** The available groups *)

Lemma touch_counts_same_view gs st : same_view st (touch_counts gs st).
Proof.
  revert st. induction gs as [|g gs IH]; intros st; simpl.
  - apply same_view_refl.
  - eapply same_view_trans; [apply touch_count_same_view | apply IH].
Qed.

Lemma touch_counts_lookup gs st k :
  group_counts (touch_counts gs st) !! k =
  match group_counts st !! k with
  | Some c => Some c
  | None => if decide (k ∈ gs) then Some 0 else None
  end.
Proof.
  revert st. induction gs as [|g gs IH]; intros st.
  - change (touch_counts [] st) with st.
    destruct (group_counts st !! k); [done|].
    by rewrite decide_False by apply not_elem_of_nil.
  - change (touch_counts (g :: gs) st) with (touch_counts gs (touch_count g st)).
    rewrite IH. unfold touch_count.
    destruct (group_counts st !! g) eqn:E.
    + destruct (group_counts st !! k) eqn:E'; [done|].
      assert (k ≠ g) by congruence.
      destruct (decide (k ∈ gs)) as [Y|N].
      * by rewrite decide_True by (by right).
      * rewrite decide_False; [done|]. by intros [?|?]%elem_of_cons.
    + simpl. destruct (decide (g = k)) as [->|N].
      * rewrite lookup_insert_eq, E. by rewrite decide_True by left.
      * rewrite lookup_insert_ne by done.
        destruct (group_counts st !! k); [done|].
        destruct (decide (k ∈ gs)) as [Y|N'].
        -- by rewrite decide_True by (by right).
        -- rewrite decide_False; [done|].
           intros [?|?]%elem_of_cons; congruence.
Qed.

Lemma touch_counts_fields gs st :
  group_source_groupes (touch_counts gs st) = group_source_groupes st ∧
  group_metiers (touch_counts gs st) = group_metiers st.
Proof.
  revert st. induction gs as [|g gs IH]; intros st; simpl; [done|].
  destruct (IH (touch_count g st)) as [-> ->]. unfold touch_count.
  by destruct (group_counts st !! g).
Qed.

Lemma GroupAllocator_eq st st' :
  group_counts st = group_counts st' →
  group_source_groupes st = group_source_groupes st' →
  group_metiers st = group_metiers st' → st = st'.
Proof. destruct st, st'. simpl. by intros -> -> ->. Qed.

Lemma touch_counts_perm gs gs' st :
  gs ≡ₚ gs' → touch_counts gs st = touch_counts gs' st.
Proof.
  intros P. apply GroupAllocator_eq.
  - apply map_eq. intros k. rewrite !touch_counts_lookup.
    destruct (group_counts st !! k); [done|].
    destruct (decide (k ∈ gs)) as [Y|N].
    + rewrite decide_True; [done|]. by rewrite <- P.
    + rewrite decide_False; [done|]. by rewrite <- P.
  - destruct (touch_counts_fields gs st) as [-> _].
    by destruct (touch_counts_fields gs' st) as [-> _].
  - destruct (touch_counts_fields gs st) as [_ ->].
    by destruct (touch_counts_fields gs' st) as [_ ->].
Qed.

Lemma touch_counts_id gs st :
  (∀ g, g ∈ gs → is_Some (group_counts st !! g)) → touch_counts gs st = st.
Proof.
  revert st. induction gs as [|g gs IH]; intros st Hs; simpl; [done|].
  rewrite touch_count_id by (apply Hs; left). apply IH.
  intros h Hh. apply Hs. by right.
Qed.

Lemma keep_available_eq st0 gs st :
  Forall (λ g, 1 ≤ g ≤ 23) gs → same_view st0 st →
  keep_available gs st =
  (Ok (filter (λ g, count st0 g < capacity g) gs), touch_counts gs st).
Proof.
  intros Hgs. revert st. induction Hgs as [|g gs Hg Hgs IH]; intros st V.
  - done.
  - simpl keep_available.
    rewrite (bind_ok _ _ _ _ _ (counts_getitem_eq g st)).
    rewrite (bind_ok _ _ _ _ _ (capacities_getitem_eq g _ Hg)).
    assert (same_view st0 (touch_count g st)) as V'.
    { eapply same_view_trans; [done | apply touch_count_same_view]. }
    rewrite (bind_ok _ _ _ _ _ (IH _ V')). rewrite ret_eq.
    rewrite filter_cons. destruct V as [V _]. rewrite V.
    destruct (Z.ltb_spec (count st0 g) (capacity g)).
    + by rewrite decide_True.
    + by rewrite decide_False by lia.
Qed.

Lemma elem_of_allowed_list st periode stage_oui g :
  g ∈ allowed_list st periode stage_oui ↔ available st periode stage_oui g.
Proof.
  unfold allowed_list, available.
  rewrite merge_sort_Permutation, list_elem_of_filter, elem_of_elements.
  tauto.
Qed.

Lemma merge_sort_perm (l1 l2 : list Z) :
  l1 ≡ₚ l2 → merge_sort Z.le l1 = merge_sort Z.le l2.
Proof.
  intros P. apply (Sorted_unique Z.le).
  - apply Sorted_merge_sort, _.
  - apply Sorted_merge_sort, _.
  - by rewrite !merge_sort_Permutation.
Qed.

(** ** The methods, in terms of what the counters read as *)

Section AllocatorFacts.

Context `{SetIter}.

Lemma set_iter_range periode stage_oui :
  Forall (λ g, 1 ≤ g ≤ 23) (set_iter (eligible periode stage_oui)).
Proof.
  apply Forall_forall. intros g Hg. rewrite set_iter_perm in Hg.
  apply elem_of_elements in Hg. by eapply eligible_range.
Qed.

Lemma get_allowed_groups_eq periode stage_oui st :
  get_allowed_groups periode stage_oui st =
  (Ok (allowed_list st periode stage_oui),
   touch_counts (elements (eligible periode stage_oui)) st).
Proof.
  pose proof (set_iter_range periode stage_oui) as R.
  unfold get_allowed_groups, allowed_list. revert R. unfold eligible.
  destruct (period_groups periode) as [s|]; intros R.
  - cbv zeta.
    rewrite (bind_ok _ _ _ _ _ (keep_available_eq st _ st R (same_view_refl st))).
    rewrite ret_eq. f_equal.
    + f_equal. apply merge_sort_perm. by rewrite set_iter_perm.
    + apply touch_counts_perm, set_iter_perm.
  - by rewrite ret_eq, elements_empty.
Qed.

Lemma score_group_eq g sg m st :
  ∃ st', score_group g sg m st = (Ok (score_of st sg m g), st') ∧
         same_view st st'.
Proof.
  unfold score_group.
  rewrite (bind_ok _ _ _ _ _ (counts_getitem_eq g st)).
  pose proof (touch_count_same_view g st) as V1.
  destruct (source_groupes_getitem_eq g sg (touch_count g st))
    as (st2 & E2 & V2).
  rewrite (bind_ok _ _ _ _ _ E2).
  destruct (metiers_getitem_eq g m st2) as (st3 & E3 & V3).
  rewrite (bind_ok _ _ _ _ _ E3). rewrite ret_eq.
  exists st3. split.
  - unfold score_of. destruct V1 as (_ & B1 & C1), V2 as (_ & _ & C2).
    by rewrite B1, C2, C1.
  - eauto using same_view_trans.
Qed.

Lemma min_loop_eq st0 sg m gs :
  ∀ best st, same_view st0 st →
  ∃ g st',
    min_loop (λ g, score_group g sg m) best (score_of st0 sg m best) gs st
    = (Ok g, st') ∧
    same_view st0 st' ∧ g ∈ best :: gs ∧
    ∀ h, h ∈ best :: gs →
         tuple_lt (score_of st0 sg m h) (score_of st0 sg m g) = false.
Proof.
  induction gs as [|g gs IH]; intros best st V.
  - exists best, st. split_and!; [done|done|by left|].
    intros h ->%list_elem_of_singleton. apply tuple_lt_irrefl.
  - simpl min_loop.
    destruct (score_group_eq g sg m st) as (st1 & E1 & V1).
    rewrite (bind_ok _ _ _ _ _ E1).
    rewrite (score_of_same_view _ _ _ _ _ V).
    assert (same_view st0 st1) as V' by eauto using same_view_trans.
    destruct (tuple_lt (score_of st0 sg m g) (score_of st0 sg m best)) eqn:L.
    + destruct (IH g st1 V') as (r & st' & E & V'' & Hr & Hmin).
      exists r, st'. split_and!; [done|done|by right|].
      intros h [->|Hh]%elem_of_cons; [|by apply Hmin].
      apply not_true_iff_false. intros L'.
      pose proof (tuple_lt_trans _ _ _ L L') as L''.
      rewrite Hmin in L''; [done|by left].
    + destruct (IH best st1 V') as (r & st' & E & V'' & Hr & Hmin).
      exists r, st'. split_and!; [done|done|..].
      * apply elem_of_cons in Hr as [->|Hr]; [by left|by do 2 right].
      * intros h [->|[->|Hh]%elem_of_cons]%elem_of_cons.
        -- apply Hmin. by left.
        -- apply not_true_iff_false. intros L'.
           pose proof (tuple_lt_le_trans _ _ _ L L') as L''.
           rewrite Hmin in L''; [done|by left].
        -- apply Hmin. by right.
Qed.

(** The record of a placement: the three [+= 1] of [allocate_student]. *)
Lemma record_allocation_eq {A} g sg m (a : A) st :
  ∃ st',
    (c ← counts_getitem g;
     _ ← counts_setitem g (c + 1);
     s ← source_groupes_getitem g sg;
     _ ← source_groupes_setitem g sg (s + 1);
     k ← metiers_getitem g m;
     _ ← metiers_setitem g m (k + 1);
     mret a) st = (Ok a, st') ∧
    placed st g sg m st'.
Proof.
  rewrite (bind_ok _ _ _ _ _ (counts_getitem_eq g st)).
  destruct (touch_count_same_view g st) as (A1 & B1 & C1).
  destruct (counts_setitem_eq g (count st g + 1) (touch_count g st))
    as (st2 & E2 & A2 & B2 & C2).
  rewrite (bind_ok _ _ _ _ _ E2).
  destruct (source_groupes_getitem_eq g sg st2) as (st3 & E3 & A3 & B3 & C3).
  rewrite (bind_ok _ _ _ _ _ E3).
  destruct (source_groupes_setitem_eq g sg (source_count st2 g sg + 1) st3)
    as (st4 & E4 & A4 & B4 & C4).
  rewrite (bind_ok _ _ _ _ _ E4).
  destruct (metiers_getitem_eq g m st4) as (st5 & E5 & A5 & B5 & C5).
  rewrite (bind_ok _ _ _ _ _ E5).
  destruct (metiers_setitem_eq g m (metier_count st4 g m + 1) st5)
    as (st6 & E6 & A6 & B6 & C6).
  rewrite (bind_ok _ _ _ _ _ E6). rewrite ret_eq.
  exists st6. split; [done|]. repeat split.
  - intros h. rewrite A6, A5, A4, A3, A2.
    case_decide; [by subst h | apply A1].
  - intros h k. rewrite B6, B5, B4.
    case_decide as D; [destruct D as [-> ->]; by rewrite B2, B1 |].
    by rewrite B3, B2, B1.
  - intros h k. rewrite C6.
    case_decide as D; [destruct D as [-> ->]; by rewrite C4, C3, C2, C1 |].
    by rewrite C5, C4, C3, C2, C1.
Qed.

Lemma same_view_placed st st1 g sg m st' :
  same_view st st1 → placed st1 g sg m st' → placed st g sg m st'.
Proof.
  intros (A & B & C) (A' & B' & C'). repeat split; intros.
  - by rewrite A', A.
  - by rewrite B', B.
  - by rewrite C', C.
Qed.

(** What one call of [allocate_student] does: it returns [None] and leaves
    the state as it is, every eligible group being full, or it returns the
    available group of least score and records the placement there. *)
Lemma allocate_student_spec periode stage_oui sg m st :
  (allocate_student periode stage_oui sg m st = (Ok None, st) ∧
   ∀ g, g ∈ eligible periode stage_oui → capacity g ≤ count st g)
  ∨
  (∃ g st',
     allocate_student periode stage_oui sg m st = (Ok (Some g), st') ∧
     available st periode stage_oui g ∧
     (∀ h, available st periode stage_oui h → h ≠ g →
           tuple_lt (score_of st sg m g) (score_of st sg m h) = true) ∧
     placed st g sg m st').
Proof.
  unfold allocate_student.
  rewrite (bind_ok _ _ _ _ _ (get_allowed_groups_eq periode stage_oui st)).
  pose proof (elem_of_allowed_list st periode stage_oui) as Hin.
  pose proof (touch_counts_same_view
                (elements (eligible periode stage_oui)) st) as V.
  destruct (allowed_list st periode stage_oui) as [|g0 gs].
  - left.
    assert (∀ g, g ∈ eligible periode stage_oui → capacity g ≤ count st g)
      as Hfull.
    { intros g Hg. destruct (Z.le_gt_cases (capacity g) (count st g)); [done|].
      exfalso. eapply not_elem_of_nil, Hin. split; [done|lia]. }
    split; [|done]. rewrite ret_eq. f_equal. apply touch_counts_id.
    intros g Hg%elem_of_elements. specialize (Hfull g Hg).
    pose proof (eligible_range _ _ _ Hg) as R.
    rewrite (capacity_eq g R) in Hfull. unfold count in Hfull.
    destruct (group_counts st !! g); [done|]. simpl in Hfull.
    repeat case_match; lia.
  - right. set (st1 := touch_counts _ st) in *.
    destruct (score_group_eq g0 sg m st1) as (st2 & E2 & V2).
    rewrite (bind_ok _ _ _ _ _ E2).
    rewrite (score_of_same_view _ _ _ _ _ V).
    assert (same_view st st2) as V' by eauto using same_view_trans.
    destruct (min_loop_eq st sg m gs g0 st2 V')
      as (g & st3 & E3 & V3 & Hg & Hmin).
    rewrite (bind_ok _ _ _ _ _ E3).
    destruct (record_allocation_eq g sg m (Some g) st3) as (st4 & E4 & P4).
    exists g, st4. split; [done|]. split; [by apply Hin|].
    split; [|by eapply same_view_placed].
    intros h Hh%Hin Hne. apply tuple_lt_total; [by apply Hmin|].
    simpl. congruence.
Qed.

End AllocatorFacts.

(** ** The capacity invariant and the validator *)

Lemma within_capacity_init : within_capacity init.
Proof.
  intros g Hg. rewrite (capacity_eq g Hg). unfold count. simpl.
  rewrite lookup_empty. simpl. repeat case_match; lia.
Qed.

Lemma within_capacity_same_view st st' :
  same_view st st' → within_capacity st → within_capacity st'.
Proof. intros (A & _) W g Hg. rewrite A. by apply W. Qed.

Lemma within_capacity_placed st periode stage_oui g sg m st' :
  available st periode stage_oui g → placed st g sg m st' →
  within_capacity st → within_capacity st'.
Proof.
  intros [_ Hlt] (A & _) W h Hh. rewrite A. specialize (W h Hh).
  case_decide; [subst h|]; lia.
Qed.

Lemma capacity_positive g : 1 ≤ g ≤ 23 → 0 < capacity g.
Proof. intros Hg. rewrite (capacity_eq g Hg). repeat case_match; lia. Qed.

Section ValidatorFacts.

Context `{SetIter}.

Lemma allocate_student_within_capacity periode stage_oui sg m st :
  within_capacity st →
  within_capacity (allocate_student periode stage_oui sg m st).2.
Proof.
  intros W.
  destruct (allocate_student_spec periode stage_oui sg m st)
    as [[-> _]|(g & st' & -> & Hav & _ & P)]; simpl; [done|].
  by eapply within_capacity_placed.
Qed.

(** The validator accepts an eligible group that is not over its
    capacity; it leaves behind what reading [group_counts] does. *)
Lemma validate_allocation_eq g periode stage_oui st :
  g ∈ eligible periode stage_oui → count st g ≤ capacity g →
  validate_allocation g periode stage_oui st = (Ok true, touch_count g st).
Proof.
  intros Hel Hc. pose proof (eligible_range _ _ _ Hel) as R.
  unfold validate_allocation.
  rewrite (bind_ok _ _ _ _ _ (counts_getitem_eq g st)).
  rewrite (bind_ok _ _ _ _ _ (capacities_getitem_eq g _ R)).
  destruct (Z.ltb_spec (capacity g) (count st g)); [lia|].
  apply eligible_spec in Hel as [Hp Hs].
  assert (String.eqb periode "P1" && negb (bool_decide (g ∈ p1_groups))
          = false) as ->.
  { destruct (String.eqb_spec periode "P1") as [->|N]; [|done]. simpl.
    rewrite bool_decide_eq_true_2; [done|]. apply p1_groups_spec.
    destruct Hp as [[_ ?]|[? _]]; [done|discriminate]. }
  assert (String.eqb periode "P2" && negb (bool_decide (g ∈ p2_groups))
          = false) as ->.
  { destruct (String.eqb_spec periode "P2") as [->|N]; [|done]. simpl.
    rewrite bool_decide_eq_true_2; [done|]. apply p2_groups_spec.
    destruct Hp as [[? _]|[_ ?]]; [discriminate|done]. }
  assert (stage_oui && bool_decide (g ∈ stage_forbidden) = false) as ->.
  { destruct stage_oui; [|done]. simpl.
    rewrite bool_decide_eq_false_2; [done|].
    rewrite stage_forbidden_spec. by apply Hs. }
  done.
Qed.

Lemma validate_after_allocate periode stage_oui sg m st g st' :
  allocate_student periode stage_oui sg m st = (Ok (Some g), st') →
  validate_allocation g periode stage_oui st' = (Ok true, touch_count g st').
Proof.
  intros E.
  destruct (allocate_student_spec periode stage_oui sg m st)
    as [[E' _]|(g' & st'' & E' & [Hel Hlt] & _ & (A & _))];
    rewrite E' in E; simplify_eq.
  apply validate_allocation_eq; [done|].
  rewrite A, decide_True by done. lia.
Qed.

End ValidatorFacts.

(** ** The loop of [main] *)

(** The decimal string of a group of the table is not empty. *)
Lemma pretty_group_nonempty (g : Z) : 1 ≤ g ≤ 23 → pretty g ≠ "".
Proof.
  intros Hg. apply group_cases in Hg. destruct_or!; subst g; by vm_compute.
Qed.

Section MainFacts.

Context `{SetIter}.

(** One turn of the loop: the validator never stops it. *)
Lemma allocate_rows_cons row rows st :
  let stage_oui := String.eqb (stage row) "oui" in
  allocate_rows (row :: rows) st =
  match allocate_student (periode row) stage_oui (groupe row) (metier row) st
  with
  | (Ok (Some g), st1) =>
      and_then (set_nouveau_groupe (pretty g) row)
               (allocate_rows rows (touch_count g st1))
  | (Ok None, st1) =>
      and_then (set_nouveau_groupe "" row) (allocate_rows rows st1)
  | (KeyError k, _) => Uncaught k
  end.
Proof.
  intros stage_oui. simpl. fold stage_oui.
  destruct (allocate_student (periode row) stage_oui (groupe row)
              (metier row) st) as [[[g|]|k] st1] eqn:E;
    [|reflexivity|reflexivity].
  rewrite (validate_after_allocate _ _ _ _ _ _ _ E). reflexivity.
Qed.

Lemma allocate_rows_total rows st :
  ∃ rows' st',
    allocate_rows rows st = Completed rows' st' ∧
    length rows' = length rows ∧
    (within_capacity st → within_capacity st').
Proof.
  revert st. induction rows as [|row rows IH]; intros st.
  - by exists [], st.
  - rewrite allocate_rows_cons. cbv zeta.
    pose proof (allocate_student_within_capacity (periode row)
      (String.eqb (stage row) "oui") (groupe row) (metier row) st) as W.
    destruct (allocate_student_spec (periode row)
      (String.eqb (stage row) "oui") (groupe row) (metier row) st)
      as [[E _]|(g & st1 & E & _)]; rewrite E in *; simpl in W.
    + destruct (IH st) as (rows' & st' & -> & L & W').
      eexists _, _. split; [done|]. simpl. split; [by rewrite L|auto].
    + destruct (IH (touch_count g st1)) as (rows' & st' & -> & L & W').
      eexists _, _. split; [done|]. simpl. split; [by rewrite L|].
      intros W0. apply W'.
      eapply within_capacity_same_view;
        [apply touch_count_same_view | auto].
Qed.

Lemma allocate_rows_app rows1 rows2 st rows1' st1 :
  allocate_rows rows1 st = Completed rows1' st1 →
  allocate_rows (rows1 ++ rows2) st =
  match allocate_rows rows2 st1 with
  | Completed rows2' st2 => Completed (rows1' ++ rows2') st2
  | SysExit code => SysExit code
  | Uncaught k => Uncaught k
  end.
Proof.
  revert st rows1'. induction rows1 as [|row rows1 IH]; intros st rows1' E.
  - simpl in E. simplify_eq. simpl. by destruct (allocate_rows rows2 st1).
  - rewrite <- app_comm_cons. rewrite allocate_rows_cons in *. cbv zeta in *.
    destruct (allocate_student (periode row) (String.eqb (stage row) "oui")
                (groupe row) (metier row) st) as [[[g|]|k] st0];
      [| |done].
    + destruct (allocate_rows rows1 (touch_count g st0))
        as [d s| |] eqn:E1; simpl in E; simplify_eq.
      rewrite (IH _ _ E1).
      by destruct (allocate_rows rows2 st1).
    + destruct (allocate_rows rows1 st0) as [d s| |] eqn:E1;
        simpl in E; simplify_eq.
      rewrite (IH _ _ E1).
      by destruct (allocate_rows rows2 st1).
Qed.

(** Two lines with the same first six fields give records that differ at
    most in their destination. *)
Lemma read_row_same_but_destination (fields rest1 rest2 : list string) :
  length fields = 6%nat →
  ∃ r1 r2,
    read_row (fields ++ rest1) = Some r1 ∧
    read_row (fields ++ rest2) = Some r2 ∧
    same_but_destination [r1] [r2].
Proof.
  intros L. do 7 (destruct fields as [|? fields]; try discriminate).
  simpl. by eexists _, _.
Qed.

(** The loop does not read [nouveau_groupe]. *)
Lemma allocate_rows_erase rows st :
  allocate_rows (set_nouveau_groupe "" <$> rows) st = allocate_rows rows st.
Proof.
  revert st. induction rows as [|row rows IH]; intros st; [done|].
  rewrite fmap_cons, !allocate_rows_cons. cbv zeta. simpl.
  destruct (allocate_student (periode row) (String.eqb (stage row) "oui")
              (groupe row) (metier row) st) as [[[g|]|k] st0]; [| |done];
    by rewrite IH.
Qed.

End MainFacts.

(** ** The claims *)

Section Claims.

Context `{SetIter}.

Lemma after_calls_within_capacity cs st :
  within_capacity st → within_capacity (after_calls cs st).
Proof.
  revert st. induction cs as [|[[[p s] sg] m] cs IH]; intros st W; [done|].
  simpl. by apply IH, allocate_student_within_capacity.
Qed.

(** On a run from a new allocator the counters count placements: the
    occupancy of a group is the number of students placed in it, and its
    two histograms count those of a given source group and profession. *)
Lemma counters_count_placements cs st g k :
  count (after_calls cs st) g
  = count st g + tally (placed_in g) (returned cs st) ∧
  source_count (after_calls cs st) g k
  = source_count st g k + tally (placed_in_from g k) (returned cs st) ∧
  metier_count (after_calls cs st) g k
  = metier_count st g k + tally (placed_in_as g k) (returned cs st).
Proof.
  revert st. induction cs as [|[[[p s] sg] m] cs IH]; intros st.
  - simpl. split_and!; lia.
  - simpl after_calls. simpl returned. unfold allocate_call.
    destruct (IH (allocate_student p s sg m st).2) as (-> & -> & ->).
    destruct (allocate_student_spec p s sg m st)
      as [[-> _]|(g' & st' & -> & _ & _ & (A & B & C))]; simpl.
    + split_and!; lia.
    + rewrite A, B, C. unfold placed_in, placed_in_from, placed_in_as. simpl.
      split_and!; repeat case_decide; repeat case_bool_decide;
        destruct_and?; simplify_eq; try lia; exfalso; auto.
Qed.

Lemma lex_lt_tuple_lt a b : tuple_lt a b = true ↔ lex_lt a b.
Proof. destruct a as [[[? ?] ?] ?], b as [[[? ?] ?] ?]. apply tuple_lt_spec. Qed.

Lemma stated_capacity_eq g : 1 ≤ g ≤ 23 → capacity g = stated_capacity g.
Proof. apply capacity_eq. Qed.

Lemma score_of_init sg m g : score_of init sg m g = (0, 0, 0, g).
Proof.
  unfold score_of, count, source_count, metier_count, nested_count. simpl.
  by rewrite !lookup_empty.
Qed.

(** C1. Capacity invariant: for every group [g] of 1..23, the table gives
    capacity 8 for groups 1-4, 7 for groups 5-22 and 6 for group 23, and
    after any sequence of calls of [allocate_student] on a new allocator,
    as at the end of the loop of [main], [group_counts[g]] is at most that
    capacity. *)
Theorem capacity_invariant (calls : list call) (rows : list Row) (g : Z) :
  1 ≤ g ≤ 23 →
  capacities !! g = Some (stated_capacity g) ∧
  count (after_calls calls init) g ≤ stated_capacity g ∧
  match main_loop rows with
  | Completed _ st_end => count st_end g ≤ stated_capacity g
  | _ => False
  end.
Proof.
  intros Hg. rewrite <- (stated_capacity_eq g Hg). split_and!.
  - rewrite (capacities_lookup g Hg). f_equal. symmetry. by apply capacity_eq.
  - by apply after_calls_within_capacity; [apply within_capacity_init|].
  - unfold main_loop.
    destruct (allocate_rows_total rows init) as (r & s & -> & _ & W).
    by apply W; [apply within_capacity_init|].
Qed.

(** C2. Eligibility: a group returned by [allocate_student] is one of
    1-4, 17-23 when the period is P1, one of 1-16 when it is P2, and none
    of 1-4 when the stage flag is set. *)
Theorem eligibility_invariant periode stage_oui sg m st g :
  (allocate_student periode stage_oui sg m st).1 = Ok (Some g) →
  (periode = "P1" → g ∈ [1; 2; 3; 4; 17; 18; 19; 20; 21; 22; 23]) ∧
  (periode = "P2" →
   g ∈ [1; 2; 3; 4; 5; 6; 7; 8; 9; 10; 11; 12; 13; 14; 15; 16]) ∧
  (stage_oui = true → g ∉ [1; 2; 3; 4]).
Proof.
  intros E.
  destruct (allocate_student_spec periode stage_oui sg m st)
    as [[E' _]|(g' & st'' & E' & [Hel _] & _)]; rewrite E' in E;
    simpl in E; simplify_eq.
  apply eligible_spec in Hel as [Hp Hs]. split_and!.
  - intros ->. destruct Hp as [[_ Hp]|[? _]]; [|discriminate].
    set_unfold. lia.
  - intros ->. destruct Hp as [[? _]|[_ Hp]]; [discriminate|].
    set_unfold. lia.
  - intros Hst. specialize (Hs Hst). set_unfold. lia.
Qed.

(** C3. Selection rule: when some eligible group has room left,
    [allocate_student] returns a group of that kind whose tuple (occupancy,
    students of the same source group, students of the same profession,
    identifier) is strictly below, in lexicographic order, that of every
    other eligible group with room left. *)
Theorem selection_rule periode stage_oui sg m st :
  (∃ h, available st periode stage_oui h) →
  ∃ g st',
    allocate_student periode stage_oui sg m st = (Ok (Some g), st') ∧
    available st periode stage_oui g ∧
    ∀ h, available st periode stage_oui h → h ≠ g →
         lex_lt (score_of st sg m g) (score_of st sg m h).
Proof.
  intros [h [Hel Hlt]].
  destruct (allocate_student_spec periode stage_oui sg m st)
    as [[_ Hfull]|(g & st' & E & Hav & Hmin & _)].
  - specialize (Hfull h Hel). lia.
  - exists g, st'. split_and!; [done|done|].
    intros h' Hh' Hne. apply lex_lt_tuple_lt. by apply Hmin.
Qed.

(** C4. Unassignment iff exhaustion: in the loop of [main] on a new
    allocator, whatever rows come before and after a row, the loop runs to
    its end without an exception and overwrites the row's destination; at
    the state in which that row is handled, [allocate_student] returns
    [None] exactly when every group of the row's eligibility set holds as
    many students as its capacity, and the row's destination is the empty
    string exactly in that case. *)
Theorem unassigned_iff_exhausted (before : list Row) (row : Row)
  (after : list Row) :
  let stage_oui := String.eqb (stage row) "oui" in
  ∃ before' st row' after' st_end,
    allocate_rows before init = Completed before' st ∧
    main_loop (before ++ row :: after)
    = Completed (before' ++ row' :: after') st_end ∧
    length before' = length before ∧
    destination_written row row' ∧
    ((allocate_student (periode row) stage_oui (groupe row) (metier row) st).1
     = Ok None ↔ exhausted st (periode row) stage_oui) ∧
    (nouveau_groupe row' = "" ↔ exhausted st (periode row) stage_oui).
Proof.
  intros stage_oui.
  destruct (allocate_rows_total before init) as (before' & st & E & L & W).
  specialize (W within_capacity_init).
  exists before', st. unfold main_loop.
  rewrite (allocate_rows_app _ (row :: after) _ _ _ E).
  rewrite allocate_rows_cons. fold stage_oui.
  destruct (allocate_student_spec (periode row) stage_oui (groupe row)
              (metier row) st)
    as [[E1 Hfull]|(g & st1 & E1 & [Hel Hlt] & _ & _)]; rewrite E1.
  - destruct (allocate_rows_total after st) as (after' & st_end & -> & _).
    exists (set_nouveau_groupe "" row), after', st_end. simpl.
    assert (exhausted st (periode row) stage_oui) as Hex.
    { intros g Hg. specialize (Hfull g Hg).
      specialize (W g (eligible_range _ _ _ Hg)). lia. }
    split_and!; [done|done|done|by left|done|done].
  - destruct (allocate_rows_total after (touch_count g st1))
      as (after' & st_end & -> & _).
    exists (set_nouveau_groupe (pretty g) row), after', st_end. simpl.
    assert (¬ exhausted st (periode row) stage_oui) as Hex.
    { intros Hex. specialize (Hex g Hel). lia. }
    split_and!; [done|done|done| |split; [done|tauto]|].
    { right. exists g. split; [by eapply eligible_range|done]. }
    split; [|tauto]. intros Hp. exfalso.
    by apply (pretty_group_nonempty g (eligible_range _ _ _ Hel)).
Qed.

(** C5. Validator unreachability: for a group returned by
    [allocate_student], [validate_allocation] on the state after the
    allocation returns [True]; and the loop of [main], from any allocator
    state, runs through all rows: it never reaches [sys.exit(1)]. *)
Theorem validator_never_fails periode stage_oui sg m st g :
  (allocate_student periode stage_oui sg m st).1 = Ok (Some g) →
  (validate_allocation g periode stage_oui
     (allocate_student periode stage_oui sg m st).2).1 = Ok true ∧
  ∀ rows st0, ∃ rows' st1, allocate_rows rows st0 = Completed rows' st1.
Proof.
  intros E. split.
  - destruct (allocate_student periode stage_oui sg m st) as [r st'] eqn:E'.
    simpl in E. subst r. simpl.
    by rewrite (validate_after_allocate _ _ _ _ _ _ _ E').
  - intros rows st0.
    destruct (allocate_rows_total rows st0) as (rows' & st1 & E' & _).
    eauto.
Qed.

(** C7. Scenario: on a new allocator, a P1 student with the stage flag
    set is placed in one of the groups 17-23, namely in group 17. *)
Theorem fresh_p1_stage_student sg m :
  ∃ g st',
    allocate_student "P1" true sg m init = (Ok (Some g), st') ∧
    g ∈ [17; 18; 19; 20; 21; 22; 23] ∧ g = 17.
Proof.
  assert (available init "P1" true 17) as H17.
  { split; [|by vm_compute].
    apply eligible_spec. split; [left; split; [done|lia] | intros _; lia]. }
  destruct (allocate_student_spec "P1" true sg m init)
    as [[_ Hfull]|(g & st' & E & [Hel Hlt] & Hmin & _)].
  - destruct H17 as [Hel Hlt]. specialize (Hfull 17 Hel). lia.
  - assert (g = 17) as ->.
    { destruct (decide (g = 17)) as [|Hne]; [done|].
      specialize (Hmin 17 H17 (not_eq_sym Hne)).
      rewrite !score_of_init in Hmin. apply tuple_lt_spec in Hmin.
      apply eligible_spec in Hel as [[[_ ?]|[? _]] Hs]; [|discriminate].
      specialize (Hs eq_refl). lia. }
    exists 17, st'. split_and!; [done| |done]. set_unfold. lia.
Qed.

(** C8. Scenario: when every group open to P2 students is empty, two
    students of period P2 without the stage flag, with the same source
    group and the same profession, allocated one after the other, are both
    placed, in two different groups. *)
Theorem consecutive_twins_are_separated sg m st :
  (∀ g, 1 ≤ g ≤ 16 → count st g = 0) →
  ∃ g1 st1 g2 st2,
    allocate_student "P2" false sg m st = (Ok (Some g1), st1) ∧
    allocate_student "P2" false sg m st1 = (Ok (Some g2), st2) ∧
    g2 ≠ g1.
Proof.
  intros Hempty.
  assert (∀ g, g ∈ eligible "P2" false ↔ 1 ≤ g ≤ 16) as Hel.
  { intros g. rewrite eligible_spec. split.
    - intros [[[? _]|[_ ?]] _]; [discriminate|done].
    - intros Hg. split; [by right|discriminate]. }
  destruct (allocate_student_spec "P2" false sg m st)
    as [[_ Hfull]|(g1 & st1 & E1 & [Hel1 _] & _ & (A & _))].
  { assert (1 ≤ 1 ≤ 16) as R by lia.
    specialize (Hfull 1 (proj2 (Hel 1) R)).
    rewrite (Hempty 1 R), capacity_eq in Hfull by lia. simpl in Hfull. lia. }
  apply Hel in Hel1.
  assert (∀ h, 1 ≤ h ≤ 16 → h ≠ g1 → available st1 "P2" false h) as Hav.
  { intros h Hh Hne. split; [by apply Hel|].
    rewrite A, decide_False, (Hempty h Hh) by done.
    apply capacity_positive. lia. }
  destruct (allocate_student_spec "P2" false sg m st1)
    as [[_ Hfull]|(g2 & st2 & E2 & _ & Hmin & _)].
  { destruct (decide (g1 = 1)) as [->|Hne].
    - destruct (Hav 2 ltac:(lia) ltac:(lia)) as [Hel2 Hlt].
      specialize (Hfull 2 Hel2). lia.
    - destruct (Hav 1 ltac:(lia) ltac:(done)) as [Hel2 Hlt].
      specialize (Hfull 1 Hel2). lia. }
  exists g1, st1, g2, st2. split_and!; [done|done|]. intros ->.
  set (h := if decide (g1 = 1) then 2 else 1).
  assert (1 ≤ h ≤ 16 ∧ h ≠ g1) as [Hh Hne] by (unfold h; case_decide; lia).
  specialize (Hmin h (Hav h Hh Hne) Hne). unfold score_of in Hmin.
  apply tuple_lt_spec in Hmin.
  rewrite !A, decide_True, decide_False, (Hempty h Hh), (Hempty g1 Hel1)
    in Hmin by done.
  lia.
Qed.

(** C9. Atomicity on failure: a call of [allocate_student] raises nothing;
    when it returns [None] the allocator state is the one before the call;
    when it returns a group, the occupancy of that group, its count for the
    student's source group and its count for the student's profession read
    one more than before, and every other counter reads as before. *)
Theorem failure_leaves_state_unchanged periode stage_oui sg m st :
  ∃ r st',
    allocate_student periode stage_oui sg m st = (Ok r, st') ∧
    match r with
    | None => st' = st
    | Some g => placed st g sg m st'
    end.
Proof.
  destruct (allocate_student_spec periode stage_oui sg m st)
    as [[E _]|(g & st' & E & _ & _ & P)].
  - by exists None, st.
  - by exists (Some g), st'.
Qed.



End Claims.

(** C6. Determinism: the result of the loop of [main] on a new allocator
    is a function of the list of records alone: whatever the order in
    which the two runs iterate over the sets of groups, they end the same
    way, with the same records and the same allocator state. *)
Theorem allocation_is_deterministic (I1 I2 : SetIter) (rows : list Row) :
  @main_loop I1 rows = @main_loop I2 rows.
Proof.
  assert (∀ p s sg m st,
            @allocate_student I1 p s sg m st = @allocate_student I2 p s sg m st)
    as Hcall.
  { intros. unfold allocate_student, mbind, M_bind.
    by rewrite (@get_allowed_groups_eq I1), (@get_allowed_groups_eq I2). }
  unfold main_loop. generalize init.
  induction rows as [|row rows IH]; intros st; [done|].
  rewrite (@allocate_rows_cons I1), (@allocate_rows_cons I2). cbv zeta.
  rewrite Hcall.
  destruct (allocate_student (periode row) (String.eqb (stage row) "oui")
              (groupe row) (metier row) st) as [[[g|]|k] st1];
    by rewrite ?IH.
Qed.

(** ** Instances of the claims on concrete inputs *)

Lemma capacity_invariant_witness :
  1 ≤ 23 ≤ 23 ∧
  capacities !! 23 = Some (stated_capacity 23) ∧
  count (@after_calls elements_iter
           [("P1", true, "G1", "dev"); ("P1", true, "G2", "ops")] init) 23
  ≤ stated_capacity 23 ∧
  match @main_loop elements_iter
          [mkRow "1" "dev" "M1" "G1" "oui" "P1" ""] with
  | Completed _ st_end => count st_end 23 ≤ stated_capacity 23
  | _ => False
  end.
Proof.
  split; [lia|].
  apply (@capacity_invariant elements_iter
           [("P1", true, "G1", "dev"); ("P1", true, "G2", "ops")]
           [mkRow "1" "dev" "M1" "G1" "oui" "P1" ""] 23).
  lia.
Defined.

Lemma eligibility_invariant_witness :
  (@allocate_student elements_iter "P1" true "G1" "dev" init).1
  = Ok (Some 17) ∧
  ("P1" = "P1" → 17 ∈ [1; 2; 3; 4; 17; 18; 19; 20; 21; 22; 23]) ∧
  ("P1" = "P2" →
   17 ∈ [1; 2; 3; 4; 5; 6; 7; 8; 9; 10; 11; 12; 13; 14; 15; 16]) ∧
  (true = true → 17 ∉ [1; 2; 3; 4]).
Proof.
  split; [vm_compute; reflexivity|].
  apply (@eligibility_invariant elements_iter "P1" true "G1" "dev" init 17).
  vm_compute. reflexivity.
Defined.

Lemma selection_rule_witness :
  ∃ g st',
    @allocate_student sorted_iter "P2" false "G1" "dev" init
    = (Ok (Some g), st') ∧
    available init "P2" false g ∧
    ∀ h, available init "P2" false h → h ≠ g →
         lex_lt (score_of init "G1" "dev" g) (score_of init "G1" "dev" h).
Proof.
  apply (@selection_rule sorted_iter "P2" false "G1" "dev" init).
  exists 5. split; vm_compute; reflexivity.
Defined.

Lemma validator_never_fails_witness :
  (@allocate_student elements_iter "P2" true "G1" "dev" init).1
  = Ok (Some 5) ∧
  (@validate_allocation 5 "P2" true
     (@allocate_student elements_iter "P2" true "G1" "dev" init).2).1
  = Ok true ∧
  ∀ rows st0, ∃ rows' st1,
    @allocate_rows elements_iter rows st0 = Completed rows' st1.
Proof.
  split; [vm_compute; reflexivity|].
  apply (@validator_never_fails elements_iter "P2" true "G1" "dev" init 5).
  vm_compute. reflexivity.
Defined.

Lemma consecutive_twins_are_separated_witness :
  (∀ g, 1 ≤ g ≤ 16 → count init g = 0) ∧
  ∃ g1 st1 g2 st2,
    @allocate_student elements_iter "P2" false "G1" "dev" init
    = (Ok (Some g1), st1) ∧
    @allocate_student elements_iter "P2" false "G1" "dev" st1
    = (Ok (Some g2), st2) ∧
    g2 ≠ g1.
Proof.
  split; [intros g _; reflexivity|].
  apply (@consecutive_twins_are_separated elements_iter "G1" "dev" init).
  intros g _. reflexivity.
Defined.


(** ** The loop on a small table *)

(** A P1 student with the stage flag, a P2 student, and a student of an
    unknown period: groups 17 and 1, and no group. *)
Example main_loop_three_rows :
  match @main_loop sorted_iter
          [mkRow "1" "dev" "M1" "G1" "oui" "P1" "";
           mkRow "2" "ops" "M2" "G1" "non" "P2" "9";
           mkRow "3" "dev" "M1" "G2" "non" "P3" ""] with
  | Completed rows _ => nouveau_groupe <$> rows = ["17"; "1"; ""]
  | _ => False
  end.
Proof. vm_compute. reflexivity. Qed.

(** Nine P1 students with the stage flag from one source group spread over
    groups 17 to 23 before any group receives a second one. *)
Example nine_calls_spread :
  (returned (H := elements_iter)
     (replicate 9 ("P1", true, "G1", "dev")) init).*2
  = Some <$> [17; 18; 19; 20; 21; 22; 23; 17; 18].
Proof. vm_compute. reflexivity. Qed.

(** * The data file, the report and further facts on the allocator *)

(** ** Text files *)

Lemma has_char_app c s1 s2 :
  has_char c (s1 +:+ s2) = has_char c s1 || has_char c s2.
Proof.
  induction s1 as [|c' s1 IH]; simpl; [done|].
  rewrite IH. by rewrite orb_assoc.
Qed.

Lemma file_read_plain text :
  has_char CR text = false → file_read text = text.
Proof.
  induction text as [|c text IH]; simpl; [done|].
  intros [Hc Ht]%orb_false_iff. rewrite Hc. by rewrite IH.
Qed.

Lemma file_read_write os text :
  has_char CR text = false → file_read (file_write os text) = text.
Proof.
  induction text as [|c text IH]; simpl; [done|].
  intros [Hc Ht]%orb_false_iff. specialize (IH Ht).
  destruct (Ascii.eqb_spec c LF) as [->|N].
  - destruct os; simpl; by rewrite IH.
  - simpl. rewrite Hc. by rewrite IH.
Qed.

Lemma has_char_cons c c' s :
  has_char c (String c' s) = Ascii.eqb c' c || has_char c s.
Proof. reflexivity. Qed.

Lemma file_read_no_cr stored : has_char CR (file_read stored) = false.
Proof.
  assert (∀ n s, (String.length s < n)%nat → has_char CR (file_read s) = false)
    as Hn; [|by apply (Hn (S (String.length stored))); lia].
  induction n as [|n IH]; intros s Hs; [lia|].
  destruct s as [|c s]; [done|]. simpl in Hs.
  destruct (Ascii.eqb_spec c CR) as [->|N].
  - destruct s as [|c' s]; [done|]. simpl in Hs.
    change (file_read (String CR (String c' s)))
      with (if Ascii.eqb c' LF then String LF (file_read s)
            else String LF (file_read (String c' s))).
    destruct (Ascii.eqb c' LF); rewrite has_char_cons;
      change (Ascii.eqb LF CR) with false; apply IH; simpl; lia.
  - change (file_read (String c s))
      with (if Ascii.eqb c CR then
              match s with
              | String c' s'' =>
                  if Ascii.eqb c' LF then String LF (file_read s'')
                  else String LF (file_read s)
              | EmptyString => String LF EmptyString
              end
            else String c (file_read s)).
    rewrite (proj2 (Ascii.eqb_neq _ _) N), has_char_cons.
    rewrite (proj2 (Ascii.eqb_neq _ _) N). apply IH. lia.
Qed.

Lemma readlines_line line rest :
  has_char LF line = false →
  readlines (line +:+ String LF rest)
  = (line +:+ String LF EmptyString) :: readlines rest.
Proof.
  induction line as [|c line IH]; simpl; [done|].
  intros [Hc Ht]%orb_false_iff. rewrite Hc. by rewrite IH.
Qed.

Lemma rstrip_newline_line line :
  has_char LF line = false →
  rstrip_newline (line +:+ String LF EmptyString) = line.
Proof.
  induction line as [|c line IH]; simpl; [done|].
  intros [Hc Ht]%orb_false_iff. rewrite (IH Ht).
  destruct line; [by rewrite Hc|done].
Qed.

Lemma rstrip_newline_no_lf s :
  has_char LF s = false → rstrip_newline s = s.
Proof.
  induction s as [|c s IH]; simpl; [done|].
  intros [Hc Ht]%orb_false_iff. rewrite (IH Ht).
  destruct s; [by rewrite Hc|done].
Qed.

Lemma split_tab_plain s : has_char TAB s = false → split_tab s = [s].
Proof.
  induction s as [|c s IH]; simpl; [done|].
  intros [Hc Ht]%orb_false_iff. rewrite Hc. by rewrite IH.
Qed.

Lemma split_tab_app part rest :
  has_char TAB part = false →
  split_tab (part +:+ String TAB rest) = part :: split_tab rest.
Proof.
  induction part as [|c part IH]; simpl; [done|].
  intros [Hc Ht]%orb_false_iff. rewrite Hc. by rewrite IH.
Qed.

Lemma split_tab_join_tab parts :
  parts ≠ [] → Forall (λ p, has_char TAB p = false) parts →
  split_tab (join_tab parts) = parts.
Proof.
  intros Hne Hp. induction Hp as [|p parts Hp Hps IH]; [done|].
  destruct parts as [|q parts]; [by apply split_tab_plain|].
  change (join_tab (p :: q :: parts))
    with (p +:+ String TAB (join_tab (q :: parts))).
  rewrite split_tab_app by done. by rewrite IH.
Qed.

Lemma string_app_cons c (s1 s2 : string) :
  String c s1 +:+ s2 = String c (s1 +:+ s2).
Proof. reflexivity. Qed.

Lemma string_app_assoc (s1 s2 s3 : string) :
  (s1 +:+ s2) +:+ s3 = s1 +:+ (s2 +:+ s3).
Proof.
  induction s1 as [|c s1 IH]; [done|]. rewrite !string_app_cons. by f_equal.
Qed.

Lemma string_app_line (s rest : string) :
  (s +:+ String LF EmptyString) +:+ rest = s +:+ String LF rest.
Proof. by rewrite string_app_assoc. Qed.

Lemma plain_empty : plain EmptyString.
Proof. done. Qed.

Lemma has_char_join_tab c parts :
  c ≠ TAB → Forall (λ p, has_char c p = false) parts →
  has_char c (join_tab parts) = false.
Proof.
  intros Hc Hp. induction Hp as [|p parts Hp Hps IH]; [done|].
  destruct parts as [|q parts]; [done|].
  change (join_tab (p :: q :: parts))
    with (p +:+ String TAB (join_tab (q :: parts))).
  rewrite has_char_app, Hp, has_char_cons, IH.
  by rewrite (proj2 (Ascii.eqb_neq _ _) (not_eq_sym Hc)).
Qed.

(** The fields of a row, in the order of the file. *)
Lemma row_fields_plain r :
  plain_row r →
  Forall plain [line_num r; metier r; choix_master r; groupe r; stage r;
                periode r; nouveau_groupe r].
Proof. intros (?&?&?&?&?&?&?). repeat (constructor; [done|]). constructor. Qed.

Lemma row_line_read r :
  plain_row r →
  has_char LF (join_tab [line_num r; metier r; choix_master r; groupe r;
                         stage r; periode r; nouveau_groupe r]) = false ∧
  read_row (split_tab (rstrip_newline (row_line r))) = Some r.
Proof.
  intros Hr%row_fields_plain.
  assert (has_char LF (join_tab [line_num r; metier r; choix_master r;
            groupe r; stage r; periode r; nouveau_groupe r]) = false) as Hlf.
  { apply has_char_join_tab; [done|].
    eapply Forall_impl; [done|]. by intros s (_ & ? & _). }
  split; [done|]. unfold row_line.
  rewrite rstrip_newline_line by done.
  rewrite split_tab_join_tab; [by destruct r|done|].
  eapply Forall_impl; [done|]. by intros s (? & _).
Qed.

Lemma readlines_rows rows :
  Forall plain_row rows →
  readlines (foldr (λ row rest, row_line row +:+ rest) EmptyString rows)
  = row_line <$> rows.
Proof.
  induction 1 as [|r rows Hr Hrows IH]; [done|]. simpl foldr.
  unfold row_line at 1. rewrite string_app_line.
  rewrite readlines_line by apply (row_line_read r Hr).
  by rewrite IH.
Qed.

Lemma has_char_rows c rows :
  c ≠ TAB → c ≠ LF →
  Forall (λ r, Forall (λ p, has_char c p = false)
                 [line_num r; metier r; choix_master r; groupe r; stage r;
                  periode r; nouveau_groupe r]) rows →
  has_char c (foldr (λ row rest, row_line row +:+ rest) EmptyString rows)
  = false.
Proof.
  intros Ht Hl. induction 1 as [|r rows Hr Hrows IH]; [done|]. simpl foldr.
  rewrite has_char_app, IH, orb_false_r. unfold row_line.
  rewrite has_char_app, has_char_join_tab by done.
  by rewrite has_char_cons, (proj2 (Ascii.eqb_neq _ _) (not_eq_sym Hl)).
Qed.

Lemma omap_cons_Some {A B} (f : A → option B) x y l :
  f x = Some y → omap f (x :: l) = y :: omap f l.
Proof. intros E. simpl. by rewrite E. Qed.

Lemma omap_cons_None {A B} (f : A → option B) x l :
  f x = None → omap f (x :: l) = omap f l.
Proof. intros E. simpl. by rewrite E. Qed.

Lemma omap_parse_rows rows :
  Forall plain_row rows → omap parse_line (row_line <$> rows) = rows.
Proof.
  induction 1 as [|r rows Hr Hrows IH]; [done|].
  rewrite fmap_cons, (omap_cons_Some _ _ r); [by rewrite IH|].
  apply (row_line_read r Hr).
Qed.

Lemma read_write_plain os header rows :
  has_char LF header = false → has_char CR header = false →
  Forall plain_row rows →
  read_data_source (write_data_source os header rows) = Loaded header rows.
Proof.
  intros Hlf Hcr Hrows. unfold read_data_source, write_data_source.
  rewrite file_read_write.
  - unfold written_text. rewrite string_app_line.
    rewrite readlines_line by done. rewrite readlines_rows by done.
    rewrite rstrip_newline_line by done. by rewrite omap_parse_rows.
  - unfold written_text. rewrite !has_char_app, Hcr. simpl.
    apply has_char_rows; [done|done|].
    eapply Forall_impl; [done|]. intros r Hr%row_fields_plain.
    eapply Forall_impl; [done|]. by intros s (_ & _ & ?).
Qed.

(** *** What the loader returns *)

Lemma readlines_rstrip_no_lf text :
  Forall (λ l, has_char LF (rstrip_newline l) = false) (readlines text).
Proof.
  induction text as [|c text IH]; [constructor|]. simpl readlines.
  destruct (Ascii.eqb_spec c LF) as [->|N].
  - constructor; [done|apply IH].
  - destruct (readlines text) as [|line lines].
    + repeat constructor. simpl. rewrite (proj2 (Ascii.eqb_neq _ _) N).
      rewrite has_char_cons. by rewrite (proj2 (Ascii.eqb_neq _ _) N).
    + apply Forall_cons in IH as [Hl Hls]. constructor; [|done].
      simpl rstrip_newline. destruct (rstrip_newline line) eqn:E.
      * rewrite (proj2 (Ascii.eqb_neq _ _) N).
        rewrite has_char_cons. by rewrite (proj2 (Ascii.eqb_neq _ _) N).
      * rewrite has_char_cons, Hl. by rewrite (proj2 (Ascii.eqb_neq _ _) N).
Qed.

Lemma readlines_has_char c text :
  has_char c text = false →
  Forall (λ l, has_char c l = false) (readlines text).
Proof.
  induction text as [|c' text IH]; [constructor|].
  rewrite has_char_cons. intros [Hc Ht]%orb_false_iff. specialize (IH Ht).
  simpl readlines. destruct (Ascii.eqb c' LF).
  - constructor; [|done]. by rewrite has_char_cons, Hc.
  - destruct (readlines text) as [|line lines].
    + repeat constructor. by rewrite has_char_cons, Hc.
    + apply Forall_cons in IH as [Hl Hls]. constructor; [|done].
      by rewrite has_char_cons, Hc, Hl.
Qed.

Lemma rstrip_newline_has_char c s :
  has_char c s = false → has_char c (rstrip_newline s) = false.
Proof.
  induction s as [|c' s IH]; [done|].
  rewrite has_char_cons. intros [Hc Ht]%orb_false_iff. specialize (IH Ht).
  simpl rstrip_newline. destruct (rstrip_newline s).
  - destruct (Ascii.eqb c' LF); [done|]. by rewrite has_char_cons, Hc.
  - by rewrite has_char_cons, Hc, IH.
Qed.

Lemma split_tab_no_tab s :
  Forall (λ p, has_char TAB p = false) (split_tab s).
Proof.
  induction s as [|c s IH]; [by repeat constructor|]. simpl split_tab.
  destruct (Ascii.eqb c TAB) eqn:E; [by constructor|].
  destruct (split_tab s) as [|part parts].
  - repeat constructor. by rewrite has_char_cons, E.
  - apply Forall_cons in IH as [Hp Hps]. constructor; [|done].
    by rewrite has_char_cons, E, Hp.
Qed.

Lemma split_tab_has_char c s :
  has_char c s = false →
  Forall (λ p, has_char c p = false) (split_tab s).
Proof.
  induction s as [|c' s IH]; [by repeat constructor|].
  rewrite has_char_cons. intros [Hc Ht]%orb_false_iff. specialize (IH Ht).
  simpl split_tab. destruct (Ascii.eqb c' TAB); [by constructor|].
  destruct (split_tab s) as [|part parts].
  - repeat constructor. by rewrite has_char_cons, Hc.
  - apply Forall_cons in IH as [Hp Hps]. constructor; [|done].
    by rewrite has_char_cons, Hc, Hp.
Qed.

Lemma read_row_plain parts r :
  Forall plain parts → read_row parts = Some r → plain_row r.
Proof.
  intros Hp E.
  do 6 (destruct parts as [|? parts]; [done|];
        apply Forall_cons in Hp as [? Hp]).
  simpl in E. simplify_eq. unfold plain_row. simpl.
  split_and!; try done.
  destruct parts; [done|]. by apply Forall_cons in Hp as [? _].
Qed.

Lemma parse_line_plain line r :
  has_char LF (rstrip_newline line) = false → has_char CR line = false →
  parse_line line = Some r → plain_row r.
Proof.
  intros Hlf Hcr. apply read_row_plain.
  pose proof (split_tab_no_tab (rstrip_newline line)) as H1.
  pose proof (split_tab_has_char LF _ Hlf) as H2.
  pose proof (split_tab_has_char CR _ (rstrip_newline_has_char CR _ Hcr))
    as H3.
  apply Forall_forall. intros p Hp.
  rewrite Forall_forall in H1, H2, H3. split_and!; auto.
Qed.

Lemma omap_parse_plain lines :
  Forall (λ l, has_char LF (rstrip_newline l) = false) lines →
  Forall (λ l, has_char CR l = false) lines →
  Forall plain_row (omap parse_line lines).
Proof.
  induction lines as [|line lines IH]; intros Hlf Hcr; [constructor|].
  apply Forall_cons in Hlf as [Hl Hlf]. apply Forall_cons in Hcr as [Hc Hcr].
  simpl. destruct (parse_line line) as [r|] eqn:E; [|by apply IH].
  constructor; [by eapply parse_line_plain | by apply IH].
Qed.

Lemma read_data_source_plain stored header rows :
  read_data_source stored = Loaded header rows →
  has_char LF header = false ∧ has_char CR header = false ∧
  Forall plain_row rows.
Proof.
  unfold read_data_source. intros E.
  pose proof (readlines_rstrip_no_lf (file_read stored)) as Hlf.
  pose proof (readlines_has_char CR _ (file_read_no_cr stored)) as Hcr.
  destruct (readlines (file_read stored)) as [|line0 lines]; [done|].
  simplify_eq.
  apply Forall_cons in Hlf as [Hl Hlf]. apply Forall_cons in Hcr as [Hc Hcr].
  split_and!; [done|by apply rstrip_newline_has_char|].
  by apply omap_parse_plain.
Qed.

Lemma readlines_nil text : readlines text = [] → text = EmptyString.
Proof.
  destruct text as [|c text]; [done|]. simpl.
  destruct (Ascii.eqb c LF); [done|]. by destruct (readlines text).
Qed.

Lemma file_read_nil stored : file_read stored = EmptyString → stored = EmptyString.
Proof.
  destruct stored as [|c [|c' s]]; [done|..]; simpl.
  - by destruct (Ascii.eqb c CR).
  - destruct (Ascii.eqb c CR); [|done]. by destruct (Ascii.eqb c' LF).
Qed.

(** ** [main] from file to file *)

Lemma pretty_group_plain (g : Z) : 1 ≤ g ≤ 23 → plain (pretty g).
Proof.
  intros Hg. apply group_cases in Hg. destruct_or!; subst g; by vm_compute.
Qed.

Lemma pretty_group_truthy (g : Z) : 1 ≤ g ≤ 23 → truthy (pretty g) = true.
Proof.
  intros Hg. apply group_cases in Hg. destruct_or!; subst g; by vm_compute.
Qed.

Lemma allocated_row_plain r r' :
  allocated_row r r' → plain_row r → plain_row r'.
Proof.
  intros [->|(g & Hg & ->)] (?&?&?&?&?&?&?); unfold plain_row; simpl;
    split_and!; try done.
  by apply pretty_group_plain, (eligible_range _ _ _ Hg).
Qed.

Lemma allocated_row_erase r r' :
  allocated_row r r' →
  set_nouveau_groupe EmptyString r' = set_nouveau_groupe EmptyString r.
Proof. by intros [->|(g & _ & ->)]. Qed.

Section MainFileFacts.

Context `{SetIter}.

Lemma allocate_rows_allocated rows st :
  ∃ rows' st',
    allocate_rows rows st = Completed rows' st' ∧
    Forall2 allocated_row rows rows'.
Proof.
  revert st. induction rows as [|row rows IH]; intros st.
  - exists [], st. by split; [|constructor].
  - rewrite allocate_rows_cons. cbv zeta.
    destruct (allocate_student_spec (periode row)
      (String.eqb (stage row) "oui") (groupe row) (metier row) st)
      as [[E _]|(g & st1 & E & [Hel _] & _)]; rewrite E.
    + destruct (IH st) as (rows' & st' & -> & F).
      eexists _, _. split; [done|]. constructor; [by left|done].
    + destruct (IH (touch_count g st1)) as (rows' & st' & -> & F).
      eexists _, _. split; [done|]. constructor; [|done].
      right. by exists g.
Qed.

Lemma Forall2_allocated_plain rows rows' :
  Forall2 allocated_row rows rows' → Forall plain_row rows →
  Forall plain_row rows'.
Proof.
  induction 1 as [|r r' rows rows' Hr _ IH]; [done|].
  intros [? ?]%Forall_cons. constructor; [by eapply allocated_row_plain|auto].
Qed.

Lemma Forall2_allocated_erase rows rows' :
  Forall2 allocated_row rows rows' →
  set_nouveau_groupe EmptyString <$> rows'
  = set_nouveau_groupe EmptyString <$> rows.
Proof.
  induction 1 as [|r r' rows rows' Hr _ IH]; [done|].
  rewrite !fmap_cons, IH. by rewrite (allocated_row_erase _ _ Hr).
Qed.

Lemma main_loop_again rows rows' st :
  main_loop rows = Completed rows' st → main_loop rows' = main_loop rows.
Proof.
  unfold main_loop. intros E.
  destruct (allocate_rows_allocated rows init) as (r & s & E' & F).
  rewrite E' in E. simplify_eq.
  rewrite <- (allocate_rows_erase rows'), <- (allocate_rows_erase rows).
  by rewrite (Forall2_allocated_erase _ _ F).
Qed.

Lemma main_data_file_reads_back os stored header rows :
  read_data_source stored = Loaded header rows →
  ∃ rows' st,
    main_loop rows = Completed rows' st ∧
    main_data_file os stored = Rewritten (write_data_source os header rows') ∧
    read_data_source (write_data_source os header rows')
    = Loaded header rows' ∧
    Forall2 allocated_row rows rows'.
Proof.
  intros E. unfold main_data_file. rewrite E.
  destruct (read_data_source_plain _ _ _ E) as (Hlf & Hcr & Hp).
  unfold main_loop.
  destruct (allocate_rows_allocated rows init) as (rows' & st & -> & F).
  exists rows', st. split_and!; [done|done| |done].
  apply read_write_plain; [done|done|]. by eapply Forall2_allocated_plain.
Qed.

End MainFileFacts.

(** ** The validator on any group *)

Lemma lookup_foldl_insert_ne (v : Z) (l : list Z) (m : gmap Z Z) (g : Z) :
  g ∉ l → foldl (λ m k, <[k := v]> m) m l !! g = m !! g.
Proof.
  revert m. induction l as [|k l IH]; intros m Hg; [done|]. simpl.
  rewrite IH by (intros ?; apply Hg; by right).
  apply lookup_insert_ne. intros ->. apply Hg. by left.
Qed.

Lemma capacities_lookup_None (g : Z) :
  ¬ 1 ≤ g ≤ 23 → capacities !! g = None.
Proof.
  intros Hg. unfold capacities. cbv zeta.
  rewrite lookup_insert_ne by lia.
  rewrite !lookup_foldl_insert_ne; [done|..];
    unfold range; rewrite elem_of_seqZ; lia.
Qed.

Lemma validate_allocation_bool g periode stage_oui st :
  1 ≤ g ≤ 23 →
  validate_allocation g periode stage_oui st =
  (Ok (negb (capacity g <? count st g)
       && negb (String.eqb periode "P1" && negb (bool_decide (g ∈ p1_groups)))
       && negb (String.eqb periode "P2" && negb (bool_decide (g ∈ p2_groups)))
       && negb (stage_oui && bool_decide (g ∈ stage_forbidden))),
   touch_count g st).
Proof.
  intros Hg. unfold validate_allocation.
  rewrite (bind_ok _ _ _ _ _ (counts_getitem_eq g st)).
  rewrite (bind_ok _ _ _ _ _ (capacities_getitem_eq g _ Hg)).
  destruct (capacity g <? count st g); [done|].
  destruct (String.eqb periode "P1" && negb (bool_decide (g ∈ p1_groups)));
    [done|].
  destruct (String.eqb periode "P2" && negb (bool_decide (g ∈ p2_groups)));
    [done|].
  by destruct (stage_oui && bool_decide (g ∈ stage_forbidden)).
Qed.

Lemma validate_allocation_table g periode stage_oui st :
  1 ≤ g ≤ 23 →
  validate_allocation g periode stage_oui st =
  (Ok (bool_decide
         (count st g ≤ stated_capacity g ∧
          (periode = "P1" → 1 ≤ g ≤ 4 ∨ 17 ≤ g ≤ 23) ∧
          (periode = "P2" → 1 ≤ g ≤ 16) ∧
          (stage_oui = true → ¬ 1 ≤ g ≤ 4))),
   touch_count g st).
Proof.
  intros Hg. rewrite (validate_allocation_bool g _ _ _ Hg). do 2 f_equal.
  rewrite (stated_capacity_eq g Hg). apply Bool.eq_true_iff_eq.
  rewrite bool_decide_eq_true, !andb_true_iff, !negb_true_iff,
    !andb_false_iff, !negb_false_iff, Z.ltb_ge, !bool_decide_eq_true,
    bool_decide_eq_false, !String.eqb_neq, p1_groups_spec, p2_groups_spec,
    stage_forbidden_spec.
  destruct stage_oui, (decide (periode = "P1")), (decide (periode = "P2"));
    intuition (try lia; try congruence; try discriminate).
Qed.

Lemma validate_allocation_KeyError g periode stage_oui st :
  ¬ 1 ≤ g ≤ 23 →
  validate_allocation g periode stage_oui st = (KeyError g, touch_count g st).
Proof.
  intros Hg. unfold validate_allocation.
  rewrite (bind_ok _ _ _ _ _ (counts_getitem_eq g st)).
  unfold mbind, M_bind, capacities_getitem.
  by rewrite (capacities_lookup_None g Hg).
Qed.

(** ** The list of allowed groups *)

Lemma strictly_sorted (l : list Z) :
  StronglySorted Z.le l → NoDup l → StronglySorted Z.lt l.
Proof.
  induction 1 as [|x l Hs IH Hx]; intros Hn; [constructor|].
  apply NoDup_cons in Hn as [Hx' Hn]. constructor; [by apply IH|].
  rewrite Forall_forall in Hx |- *. intros y Hy.
  specialize (Hx y Hy). assert (x ≠ y) by (by intros ->). lia.
Qed.

Lemma allowed_list_sorted st periode stage_oui :
  StronglySorted Z.lt (allowed_list st periode stage_oui).
Proof.
  unfold allowed_list. apply strictly_sorted.
  - apply StronglySorted_merge_sort; apply _.
  - rewrite merge_sort_Permutation. apply NoDup_filter, NoDup_elements.
Qed.

(** ** Sequences of calls *)

Section CallFacts.

Context `{SetIter}.

Lemma allocate_student_None_iff periode stage_oui sg m st :
  (allocate_student periode stage_oui sg m st).1 = Ok None ↔
  ∀ g, g ∈ eligible periode stage_oui → capacity g ≤ count st g.
Proof.
  destruct (allocate_student_spec periode stage_oui sg m st)
    as [[E Hfull]|(g & st' & E & [Hel Hlt] & _)]; rewrite E; simpl.
  - done.
  - split; [done|]. intros Hfull. specialize (Hfull g Hel). lia.
Qed.

Lemma allocate_student_count_mono periode stage_oui sg m st g :
  count st g ≤ count (allocate_student periode stage_oui sg m st).2 g.
Proof.
  destruct (allocate_student_spec periode stage_oui sg m st)
    as [[E _]|(g' & st' & E & _ & _ & (A & _))]; rewrite E; simpl; [done|].
  rewrite A. case_decide; lia.
Qed.

Lemma after_calls_count_mono cs st g :
  count st g ≤ count (after_calls cs st) g.
Proof.
  revert st. induction cs as [|[[[p s] sg] m] cs IH]; intros st; [done|].
  simpl. etrans; [|apply IH]. apply allocate_student_count_mono.
Qed.

Lemma same_block_eligible g h periode stage_oui :
  same_block g h →
  g ∈ eligible periode stage_oui → h ∈ eligible periode stage_oui.
Proof.
  intros Hb. rewrite !eligible_spec. unfold same_block in Hb.
  intros [[[? ?]|[? ?]] Hs]; (split; [|intros E; specialize (Hs E); lia]).
  - left. split; [done|lia].
  - right. split; [done|lia].
Qed.

Lemma same_block_range g h : same_block g h → 1 ≤ g ≤ 23 ∧ 1 ≤ h ≤ 23.
Proof. unfold same_block. lia. Qed.

Lemma balanced_init : balanced init.
Proof. intros g h _. left. unfold count. simpl. by rewrite !lookup_empty. Qed.

Lemma allocate_student_balanced periode stage_oui sg m st :
  balanced st → balanced (allocate_student periode stage_oui sg m st).2.
Proof.
  intros B.
  destruct (allocate_student_spec periode stage_oui sg m st)
    as [[E _]|(g0 & st' & E & [Hel Hlt] & Hmin & (A & _))]; rewrite E; simpl;
    [done|].
  intros g h Hb. rewrite !A. specialize (B g h Hb).
  destruct (decide (g = g0)) as [->|Ng], (decide (h = g0)) as [->|Nh].
  - left. lia.
  - destruct (Z.lt_ge_cases (count st h) (capacity h)) as [Hav|Hfull];
      [left|right; lia].
    assert (available st periode stage_oui h) as Hh.
    { split; [by eapply same_block_eligible|done]. }
    specialize (Hmin h Hh Nh). unfold score_of in Hmin.
    apply tuple_lt_spec in Hmin. lia.
  - left. lia.
  - done.
Qed.

Lemma after_calls_balanced cs st :
  balanced st → balanced (after_calls cs st).
Proof.
  revert st. induction cs as [|[[[p s] sg] m] cs IH]; intros st B; [done|].
  simpl. by apply IH, allocate_student_balanced.
Qed.

End CallFacts.

(** ** The occupancy of the whole table *)

Lemma sum_bump (l : list Z) (f f' : Z → Z) (g : Z) :
  NoDup l →
  (∀ h, f' h = if decide (h = g) then f h + 1 else f h) →
  foldr (λ h n, f' h + n) 0 l
  = foldr (λ h n, f h + n) 0 l + (if decide (g ∈ l) then 1 else 0).
Proof.
  intros Hn Hf. induction Hn as [|x l Hx Hn IH]; [done|].
  simpl. rewrite IH, Hf.
  destruct (decide (x = g)) as [->|N].
  - rewrite (decide_False (P := g ∈ l)) by done.
    rewrite decide_True by left. lia.
  - destruct (decide (g ∈ l)) as [Y|N'].
    + rewrite decide_True by (by right). lia.
    + rewrite decide_False; [lia|]. intros [?|?]%elem_of_cons; congruence.
Qed.

Lemma total_count_same_view st st' :
  same_view st st' → total_count st' = total_count st.
Proof.
  intros (A & _). unfold total_count.
  induction (range 1 24) as [|g l IH]; [done|]. simpl. by rewrite A, IH.
Qed.

Lemma total_count_placed st g sg m st' :
  1 ≤ g ≤ 23 → placed st g sg m st' → total_count st' = total_count st + 1.
Proof.
  intros Hg (A & _). unfold total_count.
  rewrite (sum_bump _ (count st) (count st') g); [|apply NoDup_seqZ|done].
  rewrite decide_True; [done|]. unfold range. rewrite elem_of_seqZ. lia.
Qed.

Lemma total_count_bound st : within_capacity st → total_count st ≤ 164.
Proof.
  intros W. unfold total_count.
  assert (∀ l, Forall (λ g, 1 ≤ g ≤ 23) l →
               foldr (λ g n, count st g + n) 0 l
               ≤ foldr (λ g n, capacity g + n) 0 l) as Hle.
  { induction 1 as [|g l Hg _ IH]; [done|]. simpl. specialize (W g Hg). lia. }
  etrans; [apply Hle|by vm_compute].
  apply Forall_forall. intros g. unfold range. rewrite elem_of_seqZ. lia.
Qed.

Lemma total_count_init : total_count init = 0.
Proof. by vm_compute. Qed.

Section OccupancyFacts.

Context `{SetIter}.

Lemma allocate_rows_assigned rows st :
  ∃ rows' st',
    allocate_rows rows st = Completed rows' st' ∧
    length rows' = length rows ∧
    (within_capacity st → within_capacity st') ∧
    total_count st' = total_count st + assigned rows'.
Proof.
  revert st. induction rows as [|row rows IH]; intros st.
  - exists [], st. split_and!; [done|done|done|simpl; lia].
  - rewrite allocate_rows_cons. cbv zeta.
    pose proof (allocate_student_within_capacity (periode row)
      (String.eqb (stage row) "oui") (groupe row) (metier row) st) as W.
    destruct (allocate_student_spec (periode row)
      (String.eqb (stage row) "oui") (groupe row) (metier row) st)
      as [[E _]|(g & st1 & E & [Hel _] & _ & P)]; rewrite E in *; simpl in W.
    + destruct (IH st) as (rows' & st' & -> & L & W' & T).
      eexists _, _. split; [done|]. simpl. split_and!; [by rewrite L|auto|done].
    + destruct (IH (touch_count g st1)) as (rows' & st' & -> & L & W' & T).
      pose proof (eligible_range _ _ _ Hel) as R.
      eexists _, _. split; [done|]. simpl. split_and!; [by rewrite L| |].
      * intros W0. apply W'.
        eapply within_capacity_same_view;
          [apply touch_count_same_view | auto].
      * rewrite (pretty_group_truthy g R), T.
        rewrite (total_count_same_view _ _ (touch_count_same_view g st1)).
        rewrite (total_count_placed _ _ _ _ _ R P). lia.
Qed.

End OccupancyFacts.

Lemma length_unassigned rows :
  Z.of_nat (length (unassigned rows))
  = Z.of_nat (length rows) - assigned rows.
Proof.
  unfold unassigned. induction rows as [|r rows IH]; [done|]. simpl.
  destruct (truthy (nouveau_groupe r)); simpl; lia.
Qed.

(** ** The validation report *)

Lemma eligible_checks g periode stage_oui :
  g ∈ eligible periode stage_oui →
  String.eqb periode "P1" && negb (bool_decide (g ∈ p1_groups)) = false ∧
  String.eqb periode "P2" && negb (bool_decide (g ∈ p2_groups)) = false ∧
  stage_oui && bool_decide (g ∈ stage_forbidden) = false.
Proof.
  intros [Hp Hs]%eligible_spec. split_and!.
  - destruct (String.eqb_spec periode "P1") as [->|N]; [|done]. simpl.
    rewrite bool_decide_eq_true_2; [done|]. apply p1_groups_spec.
    destruct Hp as [[_ ?]|[? _]]; [done|discriminate].
  - destruct (String.eqb_spec periode "P2") as [->|N]; [|done]. simpl.
    rewrite bool_decide_eq_true_2; [done|]. apply p2_groups_spec.
    destruct Hp as [[? _]|[_ ?]]; [discriminate|done].
  - destruct stage_oui; [|done]. simpl.
    rewrite bool_decide_eq_false_2; [done|].
    rewrite stage_forbidden_spec. by apply Hs.
Qed.

Lemma over_capacity_none gs st :
  Forall (λ g, 1 ≤ g ≤ 23) gs → within_capacity st →
  ∃ st', over_capacity gs st = (Ok [], st') ∧ same_view st st'.
Proof.
  intros Hgs. revert st. induction Hgs as [|g gs Hg _ IH]; intros st W.
  - exists st. split; [done|apply same_view_refl].
  - simpl over_capacity.
    rewrite (bind_ok _ _ _ _ _ (counts_getitem_eq g st)).
    rewrite (bind_ok _ _ _ _ _ (capacities_getitem_eq g _ Hg)).
    pose proof (touch_count_same_view g st) as V.
    destruct (IH (touch_count g st)) as (st' & E & V').
    { by eapply within_capacity_same_view. }
    rewrite (bind_ok _ _ _ _ _ E), ret_eq. exists st'.
    specialize (W g Hg).
    destruct (Z.ltb_spec (capacity g) (count st g)); [lia|].
    split; [done|]. by eapply same_view_trans.
Qed.

Lemma group_statuses_ok gs st :
  Forall (λ g, 1 ≤ g ≤ 23) gs → within_capacity st →
  ∃ lines st',
    group_statuses gs st = (Ok lines, st') ∧ same_view st st' ∧
    Forall (λ l, l.2 = true) lines ∧ length lines = length gs.
Proof.
  intros Hgs. revert st. induction Hgs as [|g gs Hg _ IH]; intros st W.
  - exists [], st. split_and!; [done|apply same_view_refl|done|done].
  - simpl group_statuses.
    rewrite (bind_ok _ _ _ _ _ (counts_getitem_eq g st)).
    rewrite (bind_ok _ _ _ _ _ (capacities_getitem_eq g _ Hg)).
    pose proof (touch_count_same_view g st) as V.
    destruct (IH (touch_count g st)) as (lines & st' & E & V' & F & L).
    { by eapply within_capacity_same_view. }
    rewrite (bind_ok _ _ _ _ _ E), ret_eq. eexists _, st'.
    specialize (W g Hg).
    split_and!; [done|by eapply same_view_trans| |by simpl; rewrite L].
    constructor; [|done]. simpl. apply Z.leb_le. lia.
Qed.

Section ReportFacts.

Variable int : string → option Z.
Hypothesis int_groups : ∀ g, 1 ≤ g ≤ 23 → int (pretty g) = Some g.

Lemma period_violations_allocated rows rows' :
  Forall2 allocated_row rows rows' →
  period_violations int rows' = Some ([], []).
Proof.
  induction 1 as [|r r' rows rows' Hr _ IH]; [done|].
  simpl period_violations. destruct Hr as [->|(g & Hel & ->)]; simpl.
  - done.
  - pose proof (eligible_range _ _ _ Hel) as R.
    rewrite (pretty_group_truthy g R), (int_groups g R). simpl.
    rewrite IH. simpl.
    destruct (eligible_checks _ _ _ Hel) as (-> & -> & _). done.
Qed.

Lemma stage_violations_allocated rows rows' :
  Forall2 allocated_row rows rows' →
  stage_violations int rows' = Some [].
Proof.
  induction 1 as [|r r' rows rows' Hr _ IH]; [done|].
  simpl stage_violations. destruct Hr as [->|(g & Hel & ->)]; simpl.
  - done.
  - pose proof (eligible_range _ _ _ Hel) as R.
    rewrite (pretty_group_truthy g R). simpl.
    destruct (String.eqb (stage r) "oui") eqn:E; [|done].
    rewrite (int_groups g R). simpl. rewrite IH. simpl.
    destruct (eligible_checks _ _ _ Hel) as (_ & _ & F).
    simpl in F. by rewrite F.
Qed.

End ReportFacts.

Lemma read_data_source_IndexError stored :
  read_data_source stored = IndexError → stored = EmptyString.
Proof.
  unfold read_data_source.
  destruct (readlines (file_read stored)) eqn:E; [|done].
  intros _. by apply file_read_nil, readlines_nil.
Qed.

Lemma tally_nonneg P tr : 0 ≤ tally P tr.
Proof.
  induction tr as [|[c r] tr IH]; simpl; [done|]. destruct (P c r); lia.
Qed.

(** ** Rows that are always assigned *)

Lemma range_table :
  range 1 24 = [1; 2; 3; 4; 5; 6; 7; 8; 9; 10; 11; 12; 13; 14; 15; 16; 17;
                18; 19; 20; 21; 22; 23].
Proof. by vm_compute. Qed.

Lemma assigned_le_length rows : assigned rows ≤ Z.of_nat (length rows).
Proof.
  induction rows as [|r rows IH]; [done|]. simpl.
  destruct (truthy (nouveau_groupe r)); lia.
Qed.

Lemma count_init g : count init g = 0.
Proof. unfold count. simpl. by rewrite lookup_empty. Qed.

(** When a period P1 or P2 finds all its groups full, at least 48 students
    have been placed. *)
Lemma full_total_count st periode stage_oui :
  (∀ g, 0 ≤ count st g) →
  periode = "P1" ∨ periode = "P2" →
  (∀ g, g ∈ eligible periode stage_oui → capacity g ≤ count st g) →
  48 ≤ total_count st.
Proof.
  intros Hpos Hp Hfull.
  assert (∀ g, (periode = "P1" → 17 ≤ g ≤ 23 → stated_capacity g ≤ count st g)
             ∧ (periode = "P2" → 5 ≤ g ≤ 16 → stated_capacity g ≤ count st g))
    as Hc.
  { intros g. split; intros -> Hg;
      (rewrite <- stated_capacity_eq by lia; apply Hfull, eligible_spec;
       split; [|intros _; lia]); [left|right]; split; (done || lia). }
  unfold total_count. rewrite range_table. simpl.
  pose proof (Hpos 1). pose proof (Hpos 2). pose proof (Hpos 3).
  pose proof (Hpos 4). pose proof (Hpos 5). pose proof (Hpos 6).
  pose proof (Hpos 7). pose proof (Hpos 8). pose proof (Hpos 9).
  pose proof (Hpos 10). pose proof (Hpos 11). pose proof (Hpos 12).
  pose proof (Hpos 13). pose proof (Hpos 14). pose proof (Hpos 15).
  pose proof (Hpos 16). pose proof (Hpos 17). pose proof (Hpos 18).
  pose proof (Hpos 19). pose proof (Hpos 20). pose proof (Hpos 21).
  pose proof (Hpos 22). pose proof (Hpos 23).
  destruct Hp as [E|E].
  - pose proof (proj1 (Hc 17) E ltac:(lia)).
    pose proof (proj1 (Hc 18) E ltac:(lia)).
    pose proof (proj1 (Hc 19) E ltac:(lia)).
    pose proof (proj1 (Hc 20) E ltac:(lia)).
    pose proof (proj1 (Hc 21) E ltac:(lia)).
    pose proof (proj1 (Hc 22) E ltac:(lia)).
    pose proof (proj1 (Hc 23) E ltac:(lia)).
    unfold stated_capacity in *. simpl in *. lia.
  - pose proof (proj2 (Hc 5) E ltac:(lia)).
    pose proof (proj2 (Hc 6) E ltac:(lia)).
    pose proof (proj2 (Hc 7) E ltac:(lia)).
    pose proof (proj2 (Hc 8) E ltac:(lia)).
    pose proof (proj2 (Hc 9) E ltac:(lia)).
    pose proof (proj2 (Hc 10) E ltac:(lia)).
    pose proof (proj2 (Hc 11) E ltac:(lia)).
    unfold stated_capacity in *. simpl in *. lia.
Qed.

Section EarlyRows.

Context `{SetIter}.

Lemma allocate_rows_count_mono rows st rows' st' g :
  allocate_rows rows st = Completed rows' st' → count st g ≤ count st' g.
Proof.
  revert st rows'. induction rows as [|row rows IH]; intros st rows' E.
  - simpl in E. by simplify_eq.
  - rewrite allocate_rows_cons in E. cbv zeta in E.
    pose proof (allocate_student_count_mono (periode row)
      (String.eqb (stage row) "oui") (groupe row) (metier row) st g) as Hm.
    destruct (allocate_student (periode row) (String.eqb (stage row) "oui")
                (groupe row) (metier row) st) as [[[g0|]|k] st0];
      [| |done]; simpl in Hm.
    + destruct (allocate_rows rows (touch_count g0 st0)) as [d s| |] eqn:E1;
        simpl in E; simplify_eq.
      specialize (IH _ _ E1). rewrite count_touch_count in IH. lia.
    + destruct (allocate_rows rows st0) as [d s| |] eqn:E1;
        simpl in E; simplify_eq.
      specialize (IH _ _ E1). lia.
Qed.

End EarlyRows.

(** ** Decoding *)

Lemma continuation_spec b : continuation b = true ↔ 128 ≤ byte b ≤ 191.
Proof. unfold continuation. rewrite andb_true_iff, Z.leb_le, Z.ltb_lt. lia. Qed.

Lemma utf8_valid_cons b0 s1 :
  utf8_valid (String b0 s1) =
  if byte b0 <? 128 then utf8_valid s1
  else if byte b0 <? 224 then
    if byte b0 <? 194 then false
    else
      match s1 with
      | String b1 s2 => continuation b1 && utf8_valid s2
      | _ => false
      end
  else if byte b0 <? 240 then
    match s1 with
    | String b1 (String b2 s3) =>
        continuation b1 && continuation b2
        && negb ((byte b0 =? 224) && (byte b1 <? 160))
        && negb ((byte b0 =? 237) && (160 <=? byte b1))
        && utf8_valid s3
    | _ => false
    end
  else if byte b0 <? 245 then
    match s1 with
    | String b1 (String b2 (String b3 s4)) =>
        continuation b1 && continuation b2 && continuation b3
        && negb ((byte b0 =? 240) && (byte b1 <? 144))
        && negb ((byte b0 =? 244) && (144 <=? byte b1))
        && utf8_valid s4
    | _ => false
    end
  else false.
Proof. reflexivity. Qed.

Lemma byte_nonneg b : 0 ≤ byte b.
Proof. unfold byte. lia. Qed.

Lemma well_formed_utf8_valid s : well_formed_utf8 s → utf8_valid s = true.
Proof.
  induction 1 as [|b0 s H0 _ IH|b0 b1 s H0 H1 _ IH
                  |b0 b1 b2 s H01 H2 _ IH|b0 b1 b2 b3 s H01 H2 H3 _ IH];
    [done|rewrite utf8_valid_cons..].
  - destruct (Z.ltb_spec (byte b0) 128); [done|lia].
  - destruct (Z.ltb_spec (byte b0) 128); [lia|].
    destruct (Z.ltb_spec (byte b0) 224); [|lia].
    destruct (Z.ltb_spec (byte b0) 194); [lia|].
    by rewrite (proj2 (continuation_spec b1) H1), IH.
  - unfold three_bytes in H01.
    destruct (Z.ltb_spec (byte b0) 128); [lia|].
    destruct (Z.ltb_spec (byte b0) 224); [lia|].
    destruct (Z.ltb_spec (byte b0) 240); [|lia].
    rewrite (proj2 (continuation_spec b1)) by lia.
    rewrite (proj2 (continuation_spec b2) H2), IH. simpl.
    destruct (Z.eqb_spec (byte b0) 224), (Z.eqb_spec (byte b0) 237),
      (Z.ltb_spec (byte b1) 160), (Z.leb_spec 160 (byte b1));
      simpl; try done; lia.
  - unfold four_bytes in H01.
    destruct (Z.ltb_spec (byte b0) 128); [lia|].
    destruct (Z.ltb_spec (byte b0) 224); [lia|].
    destruct (Z.ltb_spec (byte b0) 240); [lia|].
    destruct (Z.ltb_spec (byte b0) 245); [|lia].
    rewrite (proj2 (continuation_spec b1)) by lia.
    rewrite (proj2 (continuation_spec b2) H2).
    rewrite (proj2 (continuation_spec b3) H3), IH. simpl.
    destruct (Z.eqb_spec (byte b0) 240), (Z.eqb_spec (byte b0) 244),
      (Z.ltb_spec (byte b1) 144), (Z.leb_spec 144 (byte b1));
      simpl; try done; lia.
Qed.

Lemma utf8_valid_well_formed s : utf8_valid s = true → well_formed_utf8 s.
Proof.
  assert (∀ n s, (String.length s < n)%nat → utf8_valid s = true →
                 well_formed_utf8 s) as Hn;
    [|by apply (Hn (S (String.length s))); lia].
  clear s. induction n as [|n IH]; intros s Hs; [lia|].
  destruct s as [|b0 s1]; [constructor|]. simpl in Hs.
  rewrite utf8_valid_cons. pose proof (byte_nonneg b0).
  destruct (Z.ltb_spec (byte b0) 128).
  { intros V. apply wf_one; [lia|]. apply IH; [lia|done]. }
  destruct (Z.ltb_spec (byte b0) 224).
  { destruct (Z.ltb_spec (byte b0) 194); [done|].
    destruct s1 as [|b1 s2]; [done|]. simpl in Hs.
    intros [C1 V]%andb_true_iff. apply continuation_spec in C1.
    apply wf_two; [lia|done|]. apply IH; [lia|done]. }
  destruct (Z.ltb_spec (byte b0) 240).
  { destruct s1 as [|b1 [|b2 s3]]; [done|done|]. simpl in Hs.
    intros [[[[C1 C2]%andb_true_iff N1]%andb_true_iff N2]%andb_true_iff V]
      %andb_true_iff.
    apply continuation_spec in C1, C2.
    apply negb_true_iff, andb_false_iff in N1, N2.
    rewrite Z.eqb_neq, Z.ltb_ge in N1. rewrite Z.eqb_neq, Z.leb_gt in N2.
    apply wf_three; [unfold three_bytes; lia|done|].
    apply IH; [lia|done]. }
  destruct (Z.ltb_spec (byte b0) 245); [|done].
  destruct s1 as [|b1 [|b2 [|b3 s4]]]; [done|done|done|]. simpl in Hs.
  intros [[[[[C1 C2]%andb_true_iff C3]%andb_true_iff N1]%andb_true_iff
            N2]%andb_true_iff V]%andb_true_iff.
  apply continuation_spec in C1, C2, C3.
  apply negb_true_iff, andb_false_iff in N1, N2.
  rewrite Z.eqb_neq, Z.ltb_ge in N1. rewrite Z.eqb_neq, Z.leb_gt in N2.
  apply wf_four; [unfold four_bytes; lia|done|done|].
  apply IH; [lia|done].
Qed.

Lemma utf8_valid_spec s : utf8_valid s = true ↔ well_formed_utf8 s.
Proof. split; [apply utf8_valid_well_formed|apply well_formed_utf8_valid]. Qed.

(** The decoder on small inputs: plain text, an accented letter, a sign of
    three bytes and one of four; a stray byte 255, an overlong form, a
    surrogate, a value above the last code point, a sequence cut short. *)
Example utf8_valid_samples :
  utf8_valid "P1" = true ∧
  utf8_valid (String "195" (String "169" "")) = true ∧
  utf8_valid (String "226" (String "130" (String "172" ""))) = true ∧
  utf8_valid (String "240" (String "159" (String "152" (String "128" ""))))
  = true ∧
  utf8_valid (String "255" "") = false ∧
  utf8_valid (String "192" (String "128" "")) = false ∧
  utf8_valid (String "237" (String "160" (String "128" ""))) = false ∧
  utf8_valid (String "244" (String "144" (String "128" (String "128" ""))))
  = false ∧
  utf8_valid (String "226" (String "130" "")) = false.
Proof. by vm_compute. Qed.

Lemma read_data_source_loaded stored :
  stored ≠ EmptyString →
  ∃ header rows, read_data_source stored = Loaded header rows.
Proof.
  intros Hne. destruct (read_data_source stored) as [h r|] eqn:E; [eauto|].
  by apply read_data_source_IndexError in E.
Qed.

(** * Further properties of the code *)

(** ** The data file *)

(** X1. Round trip of the data file: when the header holds no line feed or
    carriage return and no field of any row holds a tab, a line feed or a
    carriage return, [read_data_source] returns from the file written by
    [write_data_source] the header and the rows that were written, on both
    line separators. *)
Theorem write_then_read_round_trip os header rows :
  has_char LF header = false → has_char CR header = false →
  Forall plain_row rows →
  read_data_source (write_data_source os header rows) = Loaded header rows.
Proof. apply read_write_plain. Qed.

(** X2. What [read_data_source] returns from any file is kept by writing
    it with [write_data_source] and reading it again. *)
Theorem loaded_table_survives_rewrite os stored header rows :
  read_data_source stored = Loaded header rows →
  read_data_source (write_data_source os header rows) = Loaded header rows.
Proof.
  intros (Hlf & Hcr & Hp)%read_data_source_plain.
  by apply read_write_plain.
Qed.

(** X3. [read_data_source] raises [UnicodeDecodeError] exactly when the
    bytes of the file are not well-formed UTF-8, [IndexError] exactly when
    the file is empty, and returns a header and rows on every other
    file. *)
Theorem loader_raises_on_undecodable_or_empty_file bytes :
  (read_data_file bytes = UnicodeDecodeError ↔ ¬ well_formed_utf8 bytes) ∧
  (read_data_file bytes = Decoded IndexError ↔ bytes = EmptyString) ∧
  ((∃ header rows, read_data_file bytes = Decoded (Loaded header rows)) ↔
   well_formed_utf8 bytes ∧ bytes ≠ EmptyString).
Proof.
  unfold read_data_file. rewrite <- utf8_valid_spec.
  destruct (utf8_valid bytes) eqn:V.
  - split_and!.
    + split; [done|]. by intros [].
    + split; [|by intros ->].
      intros E. apply read_data_source_IndexError. congruence.
    + split.
      * intros (h & r & E). split; [done|]. intros ->. discriminate.
      * intros [_ Hne].
        destruct (read_data_source_loaded bytes Hne) as (h & r & ->). eauto.
  - split_and!.
    + split; [by intros _ ?|done].
    + split; [done|]. intros ->. discriminate.
    + split; [by intros (h & r & ?)|]. by intros [? _].
Qed.

(** X4. A line of tab-separated fields ending in a line feed: six fields
    give the row of these fields, in the order line number, profession,
    choice, source group, stage, period, with an empty destination; seven
    or more give the same with the seventh field as destination, the
    others being ignored; fewer than six give no row. *)
Theorem line_of_fields parts :
  parts ≠ [] →
  Forall (λ p, has_char TAB p = false ∧ has_char LF p = false) parts →
  parse_line (join_tab parts +:+ String LF EmptyString) =
  match parts with
  | [p0; p1; p2; p3; p4; p5] =>
      Some {| line_num := p0; metier := p1; choix_master := p2;
              groupe := p3; stage := p4; periode := p5;
              nouveau_groupe := EmptyString |}
  | p0 :: p1 :: p2 :: p3 :: p4 :: p5 :: p6 :: _ =>
      Some {| line_num := p0; metier := p1; choix_master := p2;
              groupe := p3; stage := p4; periode := p5;
              nouveau_groupe := p6 |}
  | _ => None
  end.
Proof.
  intros Hne Hp. unfold parse_line. rewrite rstrip_newline_line.
  - rewrite split_tab_join_tab; [|done|].
    + do 6 (destruct parts as [|? parts]; [done|]). by destruct parts.
    + eapply Forall_impl; [done|]. by intros p [? _].
  - apply has_char_join_tab; [done|].
    eapply Forall_impl; [done|]. by intros p [_ ?].
Qed.

(** X5. [main] raises [UnicodeDecodeError] exactly when the bytes of the
    data file are not well-formed UTF-8, [IndexError] exactly when the
    file is empty, and rewrites every other file: it then neither exits
    nor raises before the file is written. *)
Theorem main_rewrites_every_decodable_nonempty_file `{SetIter} os bytes :
  (main_on_file os bytes = UnicodeDecodeError ↔ ¬ well_formed_utf8 bytes) ∧
  (main_on_file os bytes = Decoded RaisedIndexError ↔ bytes = EmptyString) ∧
  ((∃ written, main_on_file os bytes = Decoded (Rewritten written)) ↔
   well_formed_utf8 bytes ∧ bytes ≠ EmptyString).
Proof.
  unfold main_on_file. rewrite <- utf8_valid_spec.
  assert (bytes ≠ EmptyString →
          ∃ written, main_data_file os bytes = Rewritten written) as Hw.
  { intros Hne. destruct (read_data_source_loaded bytes Hne) as (h & r & E).
    destruct (main_data_file_reads_back os _ _ _ E)
      as (rows' & st & _ & -> & _). eauto. }
  destruct (utf8_valid bytes) eqn:V.
  - split_and!.
    + split; [done|]. by intros [].
    + split; [|by intros ->].
      intros E. destruct (decide (bytes = EmptyString)) as [|Hne]; [done|].
      destruct (Hw Hne) as (w & Ew). congruence.
    + split.
      * intros (w & E). split; [done|]. intros ->. discriminate.
      * intros [_ Hne]. destruct (Hw Hne) as (w & ->). eauto.
  - split_and!.
    + split; [by intros _ ?|done].
    + split; [done|]. intros ->. discriminate.
    + split; [by intros (w & ?)|]. by intros [? _].
Qed.

(** X6. The file [main] leaves reads back as the header of the file it
    read and its rows in the same order, each unchanged but for the
    destination, which is empty or the decimal string of a group of the
    row's eligibility set. *)
Theorem main_output_reads_back `{SetIter} os stored header rows :
  read_data_source stored = Loaded header rows →
  ∃ written rows',
    main_data_file os stored = Rewritten written ∧
    read_data_source written = Loaded header rows' ∧
    Forall2 allocated_row rows rows'.
Proof.
  intros E.
  destruct (main_data_file_reads_back os _ _ _ E)
    as (rows' & st & _ & E1 & E2 & F).
  by exists (write_data_source os header rows'), rows'.
Qed.

(** X7. Running [main] on the file it has written writes the same file
    again. *)
Theorem main_is_idempotent `{SetIter} os stored written :
  main_data_file os stored = Rewritten written →
  main_data_file os written = Rewritten written.
Proof.
  intros E.
  destruct (read_data_source stored) as [header rows|] eqn:El;
    [|unfold main_data_file in E; by rewrite El in E].
  destruct (main_data_file_reads_back os _ _ _ El)
    as (rows' & st & Em & E1 & E2 & F).
  rewrite E1 in E. simplify_eq.
  unfold main_data_file. rewrite E2.
  by rewrite (main_loop_again _ _ _ Em), Em.
Qed.

(** ** The allocator *)

(** X8. After the loop of [main] the number of rows is unchanged, and the
    number of assigned rows of the summary is the total occupancy of the 23
    groups, hence at most 164, the sum of the capacities. *)
Theorem assigned_is_total_occupancy `{SetIter} rows :
  ∃ rows' st,
    main_loop rows = Completed rows' st ∧
    length rows' = length rows ∧
    assigned rows' = total_count st ∧
    assigned rows' ≤ 164.
Proof.
  unfold main_loop.
  destruct (allocate_rows_assigned rows init) as (rows' & st & E & L & W & T).
  exists rows', st. rewrite total_count_init in T.
  split_and!; [done|done|lia|].
  specialize (W within_capacity_init). apply total_count_bound in W. lia.
Qed.

(** X10. On a group of the table [validate_allocation] raises nothing and
    returns [True] exactly when the group is not over its capacity, lies in
    1-4 or 17-23 if the period is P1, in 1-16 if the period is P2, and
    outside 1-4 if the stage flag is set; a period other than P1 and P2 is
    not checked. *)
Theorem validator_decides g periode stage_oui st :
  1 ≤ g ≤ 23 →
  (validate_allocation g periode stage_oui st).1 =
  Ok (bool_decide
        (count st g ≤ stated_capacity g ∧
         (periode = "P1" → 1 ≤ g ≤ 4 ∨ 17 ≤ g ≤ 23) ∧
         (periode = "P2" → 1 ≤ g ≤ 16) ∧
         (stage_oui = true → ¬ 1 ≤ g ≤ 4))) ∧
  same_view st (validate_allocation g periode stage_oui st).2.
Proof.
  intros Hg. rewrite (validate_allocation_table g _ _ _ Hg). simpl.
  split; [done|apply touch_count_same_view].
Qed.

(** X11. On a group outside the table [validate_allocation] raises
    [KeyError] for that group, whatever the period and the flag; the
    counters read as before. *)
Theorem validator_missing_key g periode stage_oui st :
  ¬ 1 ≤ g ≤ 23 →
  (validate_allocation g periode stage_oui st).1 = KeyError g ∧
  same_view st (validate_allocation g periode stage_oui st).2.
Proof.
  intros Hg. rewrite (validate_allocation_KeyError g _ _ _ Hg). simpl.
  split; [done|apply touch_count_same_view].
Qed.

(** X12. [get_allowed_groups] raises nothing; the list it returns is
    strictly increasing and holds exactly the groups of the eligibility set
    with room left; the counters read as before. *)
Theorem allowed_groups_sorted `{SetIter} periode stage_oui st :
  ∃ l st',
    get_allowed_groups periode stage_oui st = (Ok l, st') ∧
    StronglySorted Z.lt l ∧
    (∀ g, g ∈ l ↔ available st periode stage_oui g) ∧
    same_view st st'.
Proof.
  eexists _, _. split; [apply get_allowed_groups_eq|]. split_and!.
  - apply allowed_list_sorted.
  - apply elem_of_allowed_list.
  - apply touch_counts_same_view.
Qed.

(** X13. A student whose period is neither P1 nor P2 is never placed:
    [allocate_student] returns [None] and leaves the allocator as it
    was. *)
Theorem unknown_period_is_not_placed `{SetIter} periode stage_oui sg m st :
  periode ≠ "P1" → periode ≠ "P2" →
  allocate_student periode stage_oui sg m st = (Ok None, st).
Proof.
  intros N1 N2.
  destruct (allocate_student_spec periode stage_oui sg m st)
    as [[E _]|(g & st' & _ & [Hel _] & _)]; [done|].
  apply eligible_spec in Hel as [[[? _]|[? _]] _]; congruence.
Qed.

(** X14. On an allocator that starts empty the counters count the
    placements: after any sequence of calls the occupancy of a group is the
    number of calls that returned it, and its histograms give, for a source
    group and for a profession, the number of those calls with that source
    group and with that profession. *)
Theorem counters_count_students `{SetIter} cs g k :
  count (after_calls cs init) g = tally (placed_in g) (returned cs init) ∧
  source_count (after_calls cs init) g k
  = tally (placed_in_from g k) (returned cs init) ∧
  metier_count (after_calls cs init) g k
  = tally (placed_in_as g k) (returned cs init).
Proof.
  destruct (counters_count_placements cs init g k) as (-> & -> & ->).
  unfold count, source_count, metier_count, nested_count. simpl.
  rewrite !lookup_empty. simpl. split_and!; lia.
Qed.

(** X15. Exhaustion is permanent: once [allocate_student] returns [None]
    for a period and a stage flag, it returns [None] for them after any
    further calls, whatever the source group and the profession. *)
Theorem exhaustion_is_permanent `{SetIter} periode stage_oui sg m st cs sg' m' :
  (allocate_student periode stage_oui sg m st).1 = Ok None →
  (allocate_student periode stage_oui sg' m' (after_calls cs st)).1 = Ok None.
Proof.
  rewrite !allocate_student_None_iff. intros Hfull g Hg.
  etrans; [by apply Hfull|apply after_calls_count_mono].
Qed.

(** X16. Balance: after any sequence of calls on a new allocator, two
    groups open to the same students (both in 1-4, both in 5-16 or both in
    17-23) differ in occupancy by at most one. *)
Theorem occupancy_is_balanced `{SetIter} cs g h :
  same_block g h →
  count (after_calls cs init) g ≤ count (after_calls cs init) h + 1.
Proof.
  intros Hb.
  destruct (after_calls_balanced cs init balanced_init g h Hb) as [?|Hfull];
    [done|].
  pose proof (after_calls_within_capacity cs init within_capacity_init) as W.
  destruct (same_block_range g h Hb) as [Rg Rh].
  specialize (W g Rg). rewrite (capacity_eq g Rg) in W.
  rewrite (capacity_eq h Rh) in Hfull. unfold same_block in Hb.
  repeat case_match; lia.
Qed.

(** X17. The counters never decrease: after any sequence of calls, from
    any allocator state, each of the three counters reads at least what it
    read before. *)
Theorem counters_never_decrease `{SetIter} cs st g k :
  count st g ≤ count (after_calls cs st) g ∧
  source_count st g k ≤ source_count (after_calls cs st) g k ∧
  metier_count st g k ≤ metier_count (after_calls cs st) g k.
Proof.
  destruct (counters_count_placements cs st g k) as (-> & -> & ->).
  pose proof (tally_nonneg (placed_in g) (returned cs st)).
  pose proof (tally_nonneg (placed_in_from g k) (returned cs st)).
  pose proof (tally_nonneg (placed_in_as g k) (returned cs st)).
  lia.
Qed.

(** ** The report *)

(** X9. The report of a run never shows a violation: after the loop of
    [main] every group has status OK in the list of counts, no group is
    reported over capacity, no row is counted as a P1, P2 or stage
    violation, and the number of unassigned rows it lists is the one of the
    summary.  [int] is only asked to read back the decimal strings of the
    groups. *)
Theorem report_finds_no_violation `{SetIter} (int : string → option Z) rows :
  (∀ g, 1 ≤ g ≤ 23 → int (pretty g) = Some g) →
  ∃ rows' st lines st1,
    main_loop rows = Completed rows' st ∧
    group_statuses (range 1 24) st = (Ok lines, st1) ∧
    length lines = 23%nat ∧ Forall (λ l, l.2 = true) lines ∧
    (over_capacity (range 1 24) st1).1 = Ok [] ∧
    period_violations int rows' = Some ([], []) ∧
    stage_violations int rows' = Some [] ∧
    Z.of_nat (length (unassigned rows')) = (summary rows').2.
Proof.
  intros Hint. unfold main_loop.
  destruct (allocate_rows_allocated rows init) as (rows' & st & E & F).
  destruct (allocate_rows_total rows init) as (r & s & E' & _ & W).
  rewrite E in E'. injection E' as <- <-. specialize (W within_capacity_init).
  assert (Forall (λ g, 1 ≤ g ≤ 23) (range 1 24)) as R.
  { apply Forall_forall. intros g. unfold range. rewrite elem_of_seqZ. lia. }
  destruct (group_statuses_ok (range 1 24) st R W)
    as (lines & st1 & E1 & V1 & F1 & L1).
  exists rows', st, lines, st1. split_and!; [done|done|done|done| | | |].
  - destruct (over_capacity_none (range 1 24) st1) as (st' & -> & _);
      [done| |done].
    by eapply within_capacity_same_view.
  - by eapply period_violations_allocated.
  - by eapply stage_violations_allocated.
  - apply length_unassigned.
Qed.

(** X18. The first 48 rows are never left out for lack of room: in the
    loop of [main] on a new allocator, a row of period P1 or P2 with fewer
    than 48 rows before it receives a group. *)
Theorem early_rows_are_assigned `{SetIter} before row after :
  (length before < 48)%nat →
  periode row = "P1" ∨ periode row = "P2" →
  ∃ before' row' after' st,
    main_loop (before ++ row :: after)
    = Completed (before' ++ row' :: after') st ∧
    length before' = length before ∧
    allocated_row row row' ∧
    truthy (nouveau_groupe row') = true.
Proof.
  intros Hlen Hp. unfold main_loop.
  destruct (allocate_rows_assigned before init)
    as (before' & st & E & L & _ & T).
  rewrite total_count_init in T.
  pose proof (assigned_le_length before') as Ha.
  assert (∀ g, 0 ≤ count st g) as Hpos.
  { intros g. rewrite <- (count_init g).
    by eapply allocate_rows_count_mono. }
  rewrite (allocate_rows_app _ (row :: after) _ _ _ E).
  rewrite allocate_rows_cons. cbv zeta.
  destruct (allocate_student_spec (periode row)
              (String.eqb (stage row) "oui") (groupe row) (metier row) st)
    as [[_ Hfull]|(g & st1 & -> & [Hel _] & _ & _)].
  - pose proof (full_total_count st _ _ Hpos Hp Hfull). lia.
  - destruct (allocate_rows_total after (touch_count g st1))
      as (after' & st_end & -> & _).
    exists before', (set_nouveau_groupe (pretty g) row), after', st_end.
    simpl. split_and!; [done|done|right; by exists g|].
    by apply pretty_group_truthy, (eligible_range _ _ _ Hel).
Qed.

(** ** Instances of the further properties on concrete inputs *)

Lemma write_then_read_round_trip_witness :
  has_char LF "id" = false ∧ has_char CR "id" = false ∧
  Forall plain_row [mkRow "1" "dev" "M1" "G1" "oui" "P1" "17";
                    mkRow "2" "ops" "M2" "G7" "non" "P2" ""] ∧
  read_data_source
    (write_data_source Windows "id"
       [mkRow "1" "dev" "M1" "G1" "oui" "P1" "17";
        mkRow "2" "ops" "M2" "G7" "non" "P2" ""])
  = Loaded "id" [mkRow "1" "dev" "M1" "G1" "oui" "P1" "17";
                 mkRow "2" "ops" "M2" "G7" "non" "P2" ""].
Proof.
  assert (Forall plain_row [mkRow "1" "dev" "M1" "G1" "oui" "P1" "17";
                            mkRow "2" "ops" "M2" "G7" "non" "P2" ""]) as Hp
    by (repeat constructor).
  split_and!; [reflexivity|reflexivity|exact Hp|].
  apply (write_then_read_round_trip Windows "id" _);
    [reflexivity|reflexivity|exact Hp].
Defined.

Lemma loaded_table_survives_rewrite_witness :
  read_data_source
    (join_tab ["h1"; "h2"] +:+
     String CR (String LF
       (join_tab ["1"; "dev"; "M1"; "G1"; "oui"; "P1"] +:+
        String LF "short")))
  = Loaded (join_tab ["h1"; "h2"]) [mkRow "1" "dev" "M1" "G1" "oui" "P1" ""] ∧
  read_data_source
    (write_data_source Posix (join_tab ["h1"; "h2"])
       [mkRow "1" "dev" "M1" "G1" "oui" "P1" ""])
  = Loaded (join_tab ["h1"; "h2"]) [mkRow "1" "dev" "M1" "G1" "oui" "P1" ""].
Proof.
  split; [vm_compute; reflexivity|].
  apply (loaded_table_survives_rewrite Posix
           (join_tab ["h1"; "h2"] +:+
            String CR (String LF
              (join_tab ["1"; "dev"; "M1"; "G1"; "oui"; "P1"] +:+
               String LF "short")))).
  vm_compute. reflexivity.
Defined.

Lemma line_of_fields_witness :
  parse_line (join_tab ["1"; "dev"; "M1"; "G1"; "oui"; "P1"]
              +:+ String LF EmptyString)
  = Some {| line_num := "1"; metier := "dev"; choix_master := "M1";
            groupe := "G1"; stage := "oui"; periode := "P1";
            nouveau_groupe := EmptyString |}.
Proof.
  apply (line_of_fields ["1"; "dev"; "M1"; "G1"; "oui"; "P1"]).
  - discriminate.
  - repeat constructor.
Defined.

Lemma main_output_reads_back_witness :
  ∃ written rows',
    @main_data_file elements_iter Windows
      (join_tab ["h1"; "h2"] +:+
       String CR (String LF
         (join_tab ["1"; "dev"; "M1"; "G1"; "oui"; "P1"] +:+
          String LF "short")))
    = Rewritten written ∧
    read_data_source written = Loaded (join_tab ["h1"; "h2"]) rows' ∧
    Forall2 allocated_row [mkRow "1" "dev" "M1" "G1" "oui" "P1" ""] rows'.
Proof.
  apply (@main_output_reads_back elements_iter Windows).
  vm_compute. reflexivity.
Defined.

Lemma main_is_idempotent_witness :
  @main_data_file sorted_iter Posix
    (write_data_source Posix (join_tab ["h1"; "h2"])
       [mkRow "1" "dev" "M1" "G1" "oui" "P1" "17"])
  = Rewritten
      (write_data_source Posix (join_tab ["h1"; "h2"])
         [mkRow "1" "dev" "M1" "G1" "oui" "P1" "17"]).
Proof.
  apply (@main_is_idempotent sorted_iter Posix
           (join_tab ["h1"; "h2"] +:+
            String CR (String LF
              (join_tab ["1"; "dev"; "M1"; "G1"; "oui"; "P1"] +:+
               String LF "short")))).
  vm_compute. reflexivity.
Defined.

Lemma report_finds_no_violation_witness :
  (∀ g, 1 ≤ g ≤ 23 → decimal_int (pretty g) = Some g) ∧
  ∃ rows' st lines st1,
    @main_loop elements_iter
      [mkRow "1" "dev" "M1" "G1" "oui" "P1" "";
       mkRow "2" "ops" "M2" "G7" "non" "P3" "4"]
    = Completed rows' st ∧
    group_statuses (range 1 24) st = (Ok lines, st1) ∧
    length lines = 23%nat ∧ Forall (λ l, l.2 = true) lines ∧
    (over_capacity (range 1 24) st1).1 = Ok [] ∧
    period_violations decimal_int rows' = Some ([], []) ∧
    stage_violations decimal_int rows' = Some [] ∧
    Z.of_nat (length (unassigned rows')) = (summary rows').2.
Proof.
  assert (∀ g, 1 ≤ g ≤ 23 → decimal_int (pretty g) = Some g) as Hint.
  { intros g Hg. apply group_cases in Hg.
    destruct_or!; subst g; vm_compute; reflexivity. }
  split; [exact Hint|].
  apply (@report_finds_no_violation elements_iter decimal_int). exact Hint.
Defined.

Lemma validator_decides_witness :
  1 ≤ 5 ≤ 23 ∧
  (validate_allocation 5 "P3" false init).1 =
  Ok (bool_decide
        (count init 5 ≤ stated_capacity 5 ∧
         ("P3" = "P1" → 1 ≤ 5 ≤ 4 ∨ 17 ≤ 5 ≤ 23) ∧
         ("P3" = "P2" → 1 ≤ 5 ≤ 16) ∧
         (false = true → ¬ 1 ≤ 5 ≤ 4))) ∧
  same_view init (validate_allocation 5 "P3" false init).2.
Proof. split; [lia|]. apply (validator_decides 5 "P3" false init). lia. Defined.

Lemma validator_missing_key_witness :
  ¬ 1 ≤ 24 ≤ 23 ∧
  (validate_allocation 24 "P1" false init).1 = KeyError 24 ∧
  same_view init (validate_allocation 24 "P1" false init).2.
Proof.
  split; [lia|]. apply (validator_missing_key 24 "P1" false init). lia.
Defined.

Lemma unknown_period_is_not_placed_witness :
  @allocate_student elements_iter "P3" false "G1" "dev" init = (Ok None, init).
Proof.
  apply (@unknown_period_is_not_placed elements_iter "P3" false "G1" "dev" init);
    discriminate.
Defined.

Lemma exhaustion_is_permanent_witness :
  (@allocate_student elements_iter "P1" true "G1" "dev"
     (@after_calls elements_iter
        (replicate 48 ("P1", true, "G1", "dev")) init)).1 = Ok None ∧
  (@allocate_student elements_iter "P1" true "G2" "ops"
     (@after_calls elements_iter [("P2", false, "G7", "ops")]
        (@after_calls elements_iter
           (replicate 48 ("P1", true, "G1", "dev")) init))).1 = Ok None.
Proof.
  split; [vm_compute; reflexivity|].
  apply (@exhaustion_is_permanent elements_iter "P1" true "G1" "dev").
  vm_compute. reflexivity.
Defined.

Lemma occupancy_is_balanced_witness :
  same_block 17 23 ∧
  count (@after_calls elements_iter
           [("P1", true, "G1", "dev"); ("P1", true, "G1", "dev")] init) 17
  ≤ count (@after_calls elements_iter
             [("P1", true, "G1", "dev"); ("P1", true, "G1", "dev")] init) 23
    + 1.
Proof.
  assert (same_block 17 23) as Hb by (unfold same_block; lia).
  split; [exact Hb|].
  apply (@occupancy_is_balanced elements_iter). exact Hb.
Defined.

Lemma early_rows_are_assigned_witness :
  (length [mkRow "1" "dev" "M1" "G1" "oui" "P1" ""] < 48)%nat ∧
  ∃ before' row' after' st,
    @main_loop elements_iter
      ([mkRow "1" "dev" "M1" "G1" "oui" "P1" ""]
       ++ mkRow "2" "ops" "M2" "G7" "non" "P2" "" :: [])
    = Completed (before' ++ row' :: after') st ∧
    length before' = length [mkRow "1" "dev" "M1" "G1" "oui" "P1" ""] ∧
    allocated_row (mkRow "2" "ops" "M2" "G7" "non" "P2" "") row' ∧
    truthy (nouveau_groupe row') = true.
Proof.
  split; [simpl; lia|].
  apply (@early_rows_are_assigned elements_iter); [simpl; lia|].
  right. reflexivity.
Defined.
